(** * NDEF record engine of nfcd: [core/src/nfc_ndef_rec.c]

    A shallow embedding of the record parser, the chain builders
    ([nfc_ndef_rec_new], [nfc_ndef_rec_new_tlv]), the record initializer and
    the well-known record synthesizer, together with the properties the
    specification states about them.

    Conventions.
    - C unsigned integers are [Z]; a [guint] result that can wrap is wrapped
      with [u32], a [guint8] cast is [to_u8].
    - Memory is a total function from addresses to bytes.  A [GUtilData] is,
      as in C, a pair of an address and a size: nothing in the model stops a
      function from reading past [bytes + size], exactly as nothing does in C.
    - Every [block->bytes[i]] of the record parser goes through [load], which
      also logs the address, so the set of bytes the parser touches can be
      stated and computed. *)

From Stdlib Require Import ZArith List Bool Lia.
From Stdlib Require String.
From Stdlib Require Import Strings.Byte.
Import ListNotations.
Local Open Scope Z_scope.

(* ------------------------------------------------------------------ *)
(** ** Machine integers and bytes *)

Definition u32 (x : Z) : Z := x mod 2 ^ 32.

(** The value of a [guint8]. *)
Definition u8 (b : byte) : Z := Z.of_N (Byte.to_N b).

(** The cast [(guint8) x]. *)
Definition to_u8 (x : Z) : byte :=
  match Byte.of_N (Z.to_N (x mod 256)) with
  | Some b => b
  | None => x00
  end.

(** [x & m] used as a C condition. *)
Definition bit_set (x m : Z) : bool := negb (Z.land x m =? 0).

(* ------------------------------------------------------------------ *)
(** ** Memory and byte views *)

Definition memory := Z -> byte.

(** [GUtilData]: a non-owning view, [bytes] is an address. *)
Record GUtilData := mkData { bytes : Z; size : Z }.

(** The [n] bytes stored at [p] (what [memcpy], [g_memdup] and [memcmp]
    look at). *)
Definition memread (mem : memory) (p n : Z) : list byte :=
  map (fun i => mem (p + Z.of_nat i)) (seq 0 (Z.to_nat n)).

Definition view_bytes (mem : memory) (v : GUtilData) : list byte :=
  memread mem (bytes v) (size v).

(** A byte array as an address space of its own: its first byte is at
    address 0 (this is how a freshly allocated [GByteArray] is read back). *)
Definition array_mem (buf : list byte) : memory :=
  fun a => if a <? 0 then x00 else nth (Z.to_nat a) buf x00.

(** [a] lies inside the view [v]. *)
Definition in_view (v : GUtilData) (a : Z) : Prop :=
  bytes v <= a < bytes v + size v.

(* ------------------------------------------------------------------ *)
(** ** Reads with an access log *)

(** A computation that reads memory and records the addresses it indexed. *)
Definition Rd (A : Type) : Type := memory -> A * list Z.

Definition ret {A} (a : A) : Rd A := fun _ => (a, []).

Definition bind {A B} (m : Rd A) (k : A -> Rd B) : Rd B :=
  fun mem =>
    let (a, t1) := m mem in
    let (b, t2) := k a mem in
    (b, t1 ++ t2).

(** [p[0]] for a [const guint8* p]. *)
Definition load (p : Z) : Rd Z := fun mem => (u8 (mem p), [p]).

(** A read that is not logged (it is not an index into the parser input). *)
Definition peek {A} (f : memory -> A) : Rd A := fun mem => (f mem, []).

Definition value {A} (m : Rd A) (mem : memory) : A := fst (m mem).
Definition reads {A} (m : Rd A) (mem : memory) : list Z := snd (m mem).

Declare Scope rd_scope.
Delimit Scope rd_scope with rd.
Notation "x <- m ;; k" := (bind m (fun x => k))
  (at level 61, m at next level, right associativity) : rd_scope.
Notation "' pat <- m ;; k" := (bind m (fun x => match x with pat => k end))
  (at level 61, pat pattern, m at next level, right associativity) : rd_scope.
Local Open Scope rd_scope.

(* ------------------------------------------------------------------ *)
(** ** Constants of the wire format *)

(** Modelled from the spec: the header bit masks of [nfc_ndef_p.h], which is
    not among the sources; the values are the ones of the wire layout table
    (MB 0x80, ME 0x40, CF 0x20, SR 0x10, IL 0x08, TNF 0x07). *)
Definition NFC_NDEF_HDR_MB : Z := 0x80.
Definition NFC_NDEF_HDR_ME : Z := 0x40.
Definition NFC_NDEF_HDR_CF : Z := 0x20.
Definition NFC_NDEF_HDR_SR : Z := 0x10.
Definition NFC_NDEF_HDR_IL : Z := 0x08.
Definition NFC_NDEF_HDR_TNF_MASK : Z := 0x07.

(** Modelled from the spec: the TNF values of [nfc_ndef.h] (Empty = 0,
    WellKnown = 1, ..., Unknown = 5). *)
Definition NFC_NDEF_TNF_EMPTY : Z := 0.
Definition NFC_NDEF_TNF_WELL_KNOWN : Z := 1.
Definition TNF_UNKNOWN : Z := 5.

(** Modelled from the spec: the TLV type of an NDEF message block and of the
    terminator ([nfc_tlv.h] is not among the sources). *)
Definition TLV_NULL : Z := 0x00.
Definition TLV_NDEF_MESSAGE : Z := 0x03.
Definition TLV_TERMINATOR : Z := 0xFE.

(** Modelled from the spec: the RTD tags of [nfc_ndef.h]; [Unknown] is the
    first enumerator, the value of a zero-initialized record. *)
Inductive NFC_NDEF_RTD :=
| NFC_NDEF_RTD_UNKNOWN
| NFC_NDEF_RTD_URI
| NFC_NDEF_RTD_TEXT
| NFC_NDEF_RTD_SMART_POSTER
| NFC_NDEF_RTD_HANDOVER_REQUEST
| NFC_NDEF_RTD_HANDOVER_SELECT
| NFC_NDEF_RTD_HANDOVER_CARRIER
| NFC_NDEF_RTD_ALTERNATIVE_CARRIER
| NFC_NDEF_RTD_COLLISION_RESOLUTION
| NFC_NDEF_RTD_ERROR.

(* ------------------------------------------------------------------ *)
(** ** The header descriptor and the record parser *)

(** [NfcNdefData]: the parser's output, offsets into the block it parsed. *)
Record NfcNdefData := mkNdef {
  rec : GUtilData;
  type_offset : Z;
  type_length : Z;
  id_length : Z;
  payload_length : Z
}.

(** [memset(&ndef, 0, sizeof(ndef))]. *)
Definition ndef_zero : NfcNdefData :=
  mkNdef (mkData 0 0) 0 0 0 0.

(** [nfc_ndef_rec_parse]: on success the descriptor and the advanced block.
    The reads happen before the length check, as in the source. *)
Definition nfc_ndef_rec_parse (block : GUtilData)
  : Rd (option (NfcNdefData * GUtilData)) :=
  if size block <? 3 then ret None
  else
    hdr <- load (bytes block + 0) ;;
    tl <- load (bytes block + 1) ;;
    let total_len := u32 (1 + (1 + tl)) in
    let type_offset := 2 in
    '(pl, total_len, type_offset) <-
      (if bit_set hdr NFC_NDEF_HDR_SR then
         pl <- load (bytes block + type_offset) ;;
         ret (pl, u32 (total_len + (1 + pl)), type_offset + 1)
       else
         b0 <- load (bytes block + type_offset) ;;
         b1 <- load (bytes block + (type_offset + 1)) ;;
         b2 <- load (bytes block + (type_offset + 2)) ;;
         b3 <- load (bytes block + (type_offset + 3)) ;;
         let pl := Z.lor (Z.lor (Z.lor (u32 (Z.shiftl b0 24))
                                        (u32 (Z.shiftl b1 16)))
                                 (u32 (Z.shiftl b2 8))) b3 in
         ret (pl, u32 (total_len + (4 + pl)), type_offset + 4)) ;;
    '(il, total_len, type_offset) <-
      (if bit_set hdr NFC_NDEF_HDR_IL then
         il <- load (bytes block + type_offset) ;;
         ret (il, u32 (total_len + (1 + il)), type_offset + 1)
       else ret (0, total_len, type_offset)) ;;
    if (pl <? 0x80000000) && (total_len <=? size block) then
      ret (Some (mkNdef (mkData (bytes block) total_len)
                        type_offset tl il pl,
                 mkData (bytes block + total_len) (size block - total_len)))
    else ret None.

(* ------------------------------------------------------------------ *)
(** ** The record model *)

(** A view held by a record.  [type], [id] and [payload] of a record point
    into the record's own copy of the wire bytes, so their pointer is kept
    as an offset from [raw.bytes]; [None] is the [NULL] pointer. *)
Record RawView := mkView { ptr : option Z; len : Z }.

Definition null_view : RawView := mkView None 0.

(** Modelled from the spec: [NFC_NDEF_REC_FLAGS] of [nfc_ndef.h], a subset
    of {First, Last}. *)
Record NdefFlags := mkFlags { flag_first : bool; flag_last : bool }.

(** Modelled from the spec: what a record variant adds to the common part
    (the URI and Text record classes are not among the sources). *)
Inductive NdefVariant :=
| GenericRecord
| UriRecord (uri : String.string)
| TextRecord (lang text : String.string) (utf16 : bool).

(** [NfcNdefRec] without its [next] pointer: a chain is the list of its
    records in link order, so the successor of a record is the next list
    element and the last record has none. *)
Record NfcNdefRec := mkRec {
  tnf : Z;
  rtd : NFC_NDEF_RTD;
  flags : NdefFlags;
  raw : list byte;
  type : RawView;
  id : RawView;
  payload : RawView;
  variant : NdefVariant
}.

(** The successor of the [i]-th record of a chain ([rec->next]). *)
Definition next (chain : list NfcNdefRec) (i : nat) : option NfcNdefRec :=
  nth_error chain (S i).

(** The bytes a record view denotes. *)
Definition view_of (r : NfcNdefRec) (v : RawView) : list byte :=
  match ptr v with
  | Some off => firstn (Z.to_nat (len v)) (skipn (Z.to_nat off) (raw r))
  | None => []
  end.

(** [g_object_new(NFC_TYPE_NDEF_REC, NULL)]: a zero-filled instance. *)
Definition g_object_new : NfcNdefRec :=
  mkRec 0 NFC_NDEF_RTD_UNKNOWN (mkFlags false false) []
        null_view null_view null_view GenericRecord.

Definition set_variant (r : NfcNdefRec) (v : NdefVariant) : NfcNdefRec :=
  mkRec (tnf r) (rtd r) (flags r) (raw r) (type r) (id r) (payload r) v.

(** What the repository defines outside the sources at hand and the engine
    only calls: the bound of the TNF enumeration and the payload decoders of
    the URI and Text records. *)
Class Externals := {
  NFC_NDEF_TNF_MAX : Z;
  uri_decode : memory -> NfcNdefData -> option String.string;
  text_decode : memory -> NfcNdefData -> option (String.string * String.string * bool)
}.

(** Modelled from the spec: the type names [nfc_ndef_rec_type_u] and
    [nfc_ndef_rec_type_t], "U" and "T" (one byte each). *)
Definition nfc_ndef_rec_type_u : list byte := [x55].
Definition nfc_ndef_rec_type_t : list byte := [x54].

Definition byte_list_eqb (a b : list byte) : bool :=
  if list_eq_dec Byte.byte_eq_dec a b then true else false.

(** [gutil_data_equal] against a constant: same size and same bytes. *)
Definition gutil_data_equal (mem : memory) (v : GUtilData) (c : list byte)
  : bool :=
  (size v =? Z.of_nat (length c)) && byte_list_eqb (view_bytes mem v) c.

(** [nfc_ndef_type]. *)
Definition nfc_ndef_type (ndef : NfcNdefData) : GUtilData :=
  if negb (type_length ndef =? 0) then
    mkData (bytes (rec ndef) + type_offset ndef) (type_length ndef)
  else mkData 0 0.

(** [nfc_ndef_payload]. *)
Definition nfc_ndef_payload (ndef : NfcNdefData) : GUtilData :=
  if negb (payload_length ndef =? 0) then
    mkData (bytes (rec ndef) + type_offset ndef + type_length ndef
            + id_length ndef) (payload_length ndef)
  else mkData 0 0.

Section Engine.
Context {ext : Externals}.

(** [nfc_ndef_rec_initialize]; [self] comes zero-filled from [g_object_new],
    and a field the code does not assign keeps the value [self] has. *)
Definition nfc_ndef_rec_initialize (self : NfcNdefRec) (rtd0 : NFC_NDEF_RTD)
    (ndef : NfcNdefData) (mem : memory) : NfcNdefRec :=
  let hdr := u8 (mem (bytes (rec ndef))) in
  let tnf0 := Z.land hdr NFC_NDEF_HDR_TNF_MASK in
  let raw0 := memread mem (bytes (rec ndef)) (size (rec ndef)) in
  let type0 := mkView (Some (type_offset ndef)) (type_length ndef) in
  mkRec
    (if tnf0 <? NFC_NDEF_TNF_MAX then tnf0 else tnf self)
    rtd0
    (mkFlags
       (if bit_set hdr NFC_NDEF_HDR_MB then true else flag_first (flags self))
       (if bit_set hdr NFC_NDEF_HDR_ME then true else flag_last (flags self)))
    raw0
    type0
    (if 0 <? id_length ndef then
       mkView (Some (type_offset ndef + type_length ndef)) (id_length ndef)
     else id self)
    (if negb (payload_length ndef =? 0) then
       mkView (Some (type_offset ndef + type_length ndef + id_length ndef))
              (payload_length ndef)
     else payload self)
    (variant self).

(** Modelled from the spec: [nfc_ndef_rec_u_new_from_data], the URI record
    constructor.  When the payload decodes, the record is the common part
    built by the normal initialization path with [rtd = URI], plus the
    decoded string. *)
Definition nfc_ndef_rec_u_new_from_data (ndef : NfcNdefData) (mem : memory)
  : option NfcNdefRec :=
  match uri_decode mem ndef with
  | Some uri =>
      Some (set_variant
              (nfc_ndef_rec_initialize g_object_new NFC_NDEF_RTD_URI ndef mem)
              (UriRecord uri))
  | None => None
  end.

(** Modelled from the spec: [nfc_ndef_rec_t_new_from_data], the Text record
    constructor, likewise. *)
Definition nfc_ndef_rec_t_new_from_data (ndef : NfcNdefData) (mem : memory)
  : option NfcNdefRec :=
  match text_decode mem ndef with
  | Some (lang, text, utf16) =>
      Some (set_variant
              (nfc_ndef_rec_initialize g_object_new NFC_NDEF_RTD_TEXT ndef mem)
              (TextRecord lang text utf16))
  | None => None
  end.

(** The generic record of [nfc_ndef_rec_alloc]. *)
Definition generic_rec (ndef : NfcNdefData) (mem : memory) : NfcNdefRec :=
  nfc_ndef_rec_initialize g_object_new NFC_NDEF_RTD_UNKNOWN ndef mem.

(** [nfc_ndef_rec_alloc]. *)
Definition nfc_ndef_rec_alloc (ndef : NfcNdefData) (mem : memory)
  : NfcNdefRec :=
  if negb (size (rec ndef) =? 0) then
    let type := nfc_ndef_type ndef in
    if gutil_data_equal mem type nfc_ndef_rec_type_u then
      match nfc_ndef_rec_u_new_from_data ndef mem with
      | Some uri_rec => uri_rec
      | None => generic_rec ndef mem
      end
    else if gutil_data_equal mem type nfc_ndef_rec_type_t then
      match nfc_ndef_rec_t_new_from_data ndef mem with
      | Some text_rec => text_rec
      | None => generic_rec ndef mem
      end
    else generic_rec ndef mem
  else g_object_new.

(** The [while] loop of [nfc_ndef_rec_new].  [chain] is the list from
    [first] to [last]; linking [rec] after [last] appends it.  The loop
    consumes at least one byte per round, so [fuel] is the block size. *)
Fixpoint nfc_ndef_rec_new_loop (fuel : nat) (data : GUtilData)
    (chain : list NfcNdefRec) : Rd (list NfcNdefRec) :=
  match fuel with
  | O => ret chain
  | S fuel' =>
      if 0 <? size data then
        r <- nfc_ndef_rec_parse data ;;
        match r with
        | Some (ndef, data') =>
            hdr <- peek (fun mem => u8 (mem (bytes (rec ndef)))) ;;
            if bit_set hdr NFC_NDEF_HDR_CF then
              nfc_ndef_rec_new_loop fuel' data' chain
            else
              rec0 <- peek (nfc_ndef_rec_alloc ndef) ;;
              nfc_ndef_rec_new_loop fuel' data' (chain ++ [rec0])
        | None => ret chain
        end
      else ret chain
  end.

(** [nfc_ndef_rec_new]; [None] is a [NULL] block, the empty list a [NULL]
    result. *)
Definition nfc_ndef_rec_new (block : option GUtilData)
  : Rd (list NfcNdefRec) :=
  match block with
  | Some block =>
      if negb (size block =? 0) then
        nfc_ndef_rec_new_loop (Z.to_nat (size block)) block []
      else
        first <- peek (nfc_ndef_rec_alloc ndef_zero) ;;
        ret [first]
  | None => ret []
  end.

(* ------------------------------------------------------------------ *)
(** ** TLV extraction *)

(** Modelled from the spec: [nfc_tlv_next] ([nfc_tlv.c] is not among the
    sources).  NULL TLVs are skipped, the terminator and the end of the
    stream stop the walk (result [None], the 0 the caller's loop tests), and
    any other type byte is followed by a one-byte length, or by 0xFF and a
    two-byte big-endian length, and then by that many bytes of value.  On
    success: the type, the value and the advanced buffer. *)
Fixpoint nfc_tlv_next_loop (fuel : nat) (mem : memory) (buf : GUtilData)
  : option (Z * GUtilData * GUtilData) :=
  match fuel with
  | O => None
  | S fuel' =>
      if size buf <? 1 then None
      else
        let t := u8 (mem (bytes buf)) in
        if t =? TLV_TERMINATOR then None
        else if t =? TLV_NULL then
          nfc_tlv_next_loop fuel' mem (mkData (bytes buf + 1) (size buf - 1))
        else if size buf <? 2 then None
        else
          let l := u8 (mem (bytes buf + 1)) in
          if l <? 0xff then
            if 2 + l <=? size buf then
              Some (t, mkData (bytes buf + 2) l,
                    mkData (bytes buf + (2 + l)) (size buf - (2 + l)))
            else None
          else if size buf <? 4 then None
          else
            let l := Z.lor (Z.shiftl (u8 (mem (bytes buf + 2))) 8)
                           (u8 (mem (bytes buf + 3))) in
            if 4 + l <=? size buf then
              Some (t, mkData (bytes buf + 4) l,
                    mkData (bytes buf + (4 + l)) (size buf - (4 + l)))
            else None
  end.

Definition nfc_tlv_next (mem : memory) (buf : GUtilData)
  : option (Z * GUtilData * GUtilData) :=
  nfc_tlv_next_loop (Z.to_nat (size buf)) mem buf.

(** The blocks a TLV stream yields, in order: what repeated calls of
    [nfc_tlv_next] return until it stops. *)
Fixpoint tlv_blocks_loop (fuel : nat) (mem : memory) (buf : GUtilData)
  : list (Z * GUtilData) :=
  match fuel with
  | O => []
  | S fuel' =>
      match nfc_tlv_next mem buf with
      | Some (t, v, buf') => (t, v) :: tlv_blocks_loop fuel' mem buf'
      | None => []
      end
  end.

Definition tlv_blocks (mem : memory) (buf : GUtilData)
  : list (Z * GUtilData) :=
  tlv_blocks_loop (Z.to_nat (size buf)) mem buf.

(** The [while] loop of [nfc_ndef_rec_new_tlv]: a non-[NULL] chain is linked
    after [last], and [last] moves to its end. *)
Fixpoint nfc_ndef_rec_new_tlv_loop (fuel : nat) (buf : GUtilData)
    (chain : list NfcNdefRec) : Rd (list NfcNdefRec) :=
  match fuel with
  | O => ret chain
  | S fuel' =>
      r <- peek (fun mem => nfc_tlv_next mem buf) ;;
      match r with
      | Some (t, v, buf') =>
          if t =? TLV_NDEF_MESSAGE then
            rec0 <- nfc_ndef_rec_new (Some v) ;;
            match rec0 with
            | [] => nfc_ndef_rec_new_tlv_loop fuel' buf' chain
            | _ :: _ => nfc_ndef_rec_new_tlv_loop fuel' buf' (chain ++ rec0)
            end
          else nfc_ndef_rec_new_tlv_loop fuel' buf' chain
      | None => ret chain
      end
  end.

(** [nfc_ndef_rec_new_tlv]. *)
Definition nfc_ndef_rec_new_tlv (tlv : option GUtilData)
  : Rd (list NfcNdefRec) :=
  match tlv with
  | Some tlv => nfc_ndef_rec_new_tlv_loop (Z.to_nat (size tlv)) tlv []
  | None => ret []
  end.

(* ------------------------------------------------------------------ *)
(** ** The well-known record synthesizer *)

(** [g_byte_array_append(buf, data, len)]; [len] is a [guint]. *)
Definition g_byte_array_append (buf : list byte) (mem : memory) (data len : Z)
  : list byte :=
  buf ++ memread mem data (u32 len).

(** What [nfc_ndef_rec_new_well_known] puts in [buf] before the TYPE field:
    header, TYPE LENGTH and PAYLOAD LENGTH, in long or short form. *)
Definition well_known_header (type payload : GUtilData) : list byte :=
  let hdr := Z.lor (Z.lor NFC_NDEF_HDR_MB NFC_NDEF_HDR_ME)
                   NFC_NDEF_TNF_WELL_KNOWN in
  let type_len := to_u8 (size type) in
  if 0xff <? size payload then
    [to_u8 hdr; type_len;
     to_u8 (Z.shiftr (size payload) 24);
     to_u8 (Z.shiftr (size payload) 16);
     to_u8 (Z.shiftr (size payload) 8);
     to_u8 (size payload)]
  else
    [to_u8 (Z.lor hdr NFC_NDEF_HDR_SR); type_len; to_u8 (size payload)].

(** [nfc_ndef_rec_new_well_known]: the record is initialized from the byte
    array, read in its own address space.  The [gtype] argument only picks
    the class of the instance and is left out. *)
Definition nfc_ndef_rec_new_well_known (rtd0 : NFC_NDEF_RTD)
    (type payload : GUtilData) (mem : memory) : NfcNdefRec :=
  let buf := well_known_header type payload in
  let type_offset := Z.of_nat (length buf) in
  let buf := g_byte_array_append buf mem (bytes type) (size type) in
  let buf := g_byte_array_append buf mem (bytes payload) (size payload) in
  let ndef := mkNdef (mkData 0 (Z.of_nat (length buf)))
                     type_offset (u32 (size type)) 0 (u32 (size payload)) in
  nfc_ndef_rec_initialize g_object_new rtd0 ndef (array_mem buf).

End Engine.

(* ------------------------------------------------------------------ *)
(** ** Vocabulary of the properties *)

(** What a successful [nfc_ndef_rec_parse] establishes about the descriptor
    it fills and the block it leaves. *)
Record parse_ok (block : GUtilData) (ndef : NfcNdefData) (rest : GUtilData)
  : Prop := {
  ok_bytes : bytes (rec ndef) = bytes block;
  ok_total : size (rec ndef) =
             type_offset ndef + type_length ndef + id_length ndef
             + payload_length ndef;
  ok_offset : 3 <= type_offset ndef <= 7;
  ok_fit : size (rec ndef) <= size block;
  ok_tl : 0 <= type_length ndef < 256;
  ok_il : 0 <= id_length ndef < 256;
  ok_pl : 0 <= payload_length ndef < 2 ^ 31;
  ok_rest : rest = mkData (bytes block + size (rec ndef))
                          (size block - size (rec ndef))
}.

(** The CF bit of the record a descriptor points at
    ([ndef.rec.bytes[0] & NFC_NDEF_HDR_CF]). *)
Definition chunked (mem : memory) (ndef : NfcNdefData) : bool :=
  bit_set (u8 (mem (bytes (rec ndef)))) NFC_NDEF_HDR_CF.

(** [data] starts with records that parse one after the other into [ndefs],
    and [rest] is the block left after the last of them. *)
Inductive parses (mem : memory)
  : GUtilData -> list NfcNdefData -> GUtilData -> Prop :=
| parses_nil data : parses mem data [] data
| parses_cons data ndef data' ndefs rest :
    value (nfc_ndef_rec_parse data) mem = Some (ndef, data') ->
    parses mem data' ndefs rest ->
    parses mem data (ndef :: ndefs) rest.

(** Two records agree on everything read off the wire bytes. *)
Definition same_wire (a b : NfcNdefRec) : Prop :=
  tnf a = tnf b /\ flags a = flags b /\ raw a = raw b /\
  type a = type b /\ id a = id b /\ payload a = payload b.

(** The header byte of a record: the first byte of its wire copy. *)
Definition header (r : NfcNdefRec) : option Z :=
  match raw r with
  | h :: _ => Some (u8 h)
  | [] => None
  end.

(** A memory holding [buf] from address 0 on and [beyond] elsewhere. *)
Definition place (buf : list byte) (beyond : memory) : memory :=
  fun a =>
    if (0 <=? a) && (a <? Z.of_nat (length buf))
    then nth (Z.to_nat a) buf x00 else beyond a.

Section Vocabulary.
Context {ext : Externals}.

(** The chain the loop of [nfc_ndef_rec_new] builds from [data] on. *)
Definition records_from (mem : memory) (data : GUtilData)
  : list NfcNdefRec :=
  value (nfc_ndef_rec_new_loop (Z.to_nat (size data)) data []) mem.

(** The chain built from a list of descriptors: one record per descriptor
    that is not chunked, in order. *)
Definition records_of (mem : memory) (ndefs : list NfcNdefData)
  : list NfcNdefRec :=
  flat_map (fun nd => if chunked mem nd then []
                      else [nfc_ndef_rec_alloc nd mem]) ndefs.

(** The records one TLV block contributes: the chain of its value when it
    is an NDEF message block, nothing otherwise. *)
Definition block_records (mem : memory) (b : Z * GUtilData)
  : list NfcNdefRec :=
  if fst b =? TLV_NDEF_MESSAGE
  then value (nfc_ndef_rec_new (Some (snd b))) mem else [].

End Vocabulary.

(* ------------------------------------------------------------------ *)
(** ** Sample inputs *)

Definition bytes_of (l : list Z) : list byte := map to_u8 l.

(** A stand-in for the externals: TNF bound 7, a URI decoder that accepts
    any non-empty payload and a Text decoder that accepts none. *)
Definition sample_ext : Externals := {|
  NFC_NDEF_TNF_MAX := 7;
  uri_decode := fun _ nd =>
    if payload_length nd =? 0 then None else Some String.EmptyString;
  text_decode := fun _ _ => None
|}.

Definition whole (buf : list byte) : GUtilData :=
  mkData 0 (Z.of_nat (length buf)).

(** [D1 01 00 78]: the short generic record of the spec's scenario 2. *)
Definition sample_x : list byte := bytes_of [0xd1; 1; 0; 0x78].
(** [D7 01 00 78]: the same record with TNF field 7. *)
Definition sample_tnf7 : list byte := bytes_of [0xd7; 1; 0; 0x78].
(** [11 00 01 41]: empty type, one payload byte. *)
Definition sample_no_type : list byte := bytes_of [0x11; 0; 1; 0x41].
(** A chunked record, a plain one, and three bytes that do not parse. *)
Definition sample_chunk_then_x : list byte :=
  bytes_of [0xb1; 1; 0; 0x78; 0xd1; 1; 0; 0x79; 1; 2; 3].
(** [91 01 00 78], [31 01 00 63], [51 01 00 79]: a plain record, a chunked
    one and a plain one. *)
Definition sample_chunk_mid : list byte :=
  bytes_of [0x91; 1; 0; 0x78; 0x31; 1; 0; 0x63; 0x51; 1; 0; 0x79].
(** A TLV stream: NULL, a type-1 block, an NDEF message block holding
    [sample_x], an empty NDEF message block, the terminator, and one more
    NDEF message block after it. *)
Definition sample_tlv : list byte :=
  bytes_of [0; 1; 1; 7; 3; 4; 0xd1; 1; 0; 0x78; 3; 0; 0xfe; 3; 0].

(** [89 01 00 00 00 02 01 78 69 41 42]: long form with an ID; type "x",
    ID "i", payload "AB". *)
Definition sample_long_id : list byte :=
  bytes_of [0x89; 1; 0; 0; 0; 2; 1; 0x78; 0x69; 0x41; 0x42].
(** [91 01 02 55 01 6E] followed by [51 01 00 79]: a record of type "U" and
    a plain one, with nothing after them. *)
Definition sample_two : list byte :=
  bytes_of [0x91; 1; 2; 0x55; 1; 0x6e; 0x51; 1; 0; 0x79].
(** [01 00 80 00 00 00]: long form, PAYLOAD LENGTH 0x80000000. *)
Definition sample_huge : list byte := bytes_of [0x01; 0; 0x80; 0; 0; 0].

(* ------------------------------------------------------------------ *)
(** ** The wire layout, in plain arithmetic *)

(** The fields of the record that starts a block, read as the NDEF wire
    layout gives them: header at offset 0, TYPE LENGTH at 1, PAYLOAD LENGTH
    at 2 (one byte with SR, else four bytes big-endian), ID LENGTH next when
    IL is set.  These are kept apart from the parser, to compare the two. *)
Definition wire_hdr (mem : memory) (block : GUtilData) : Z :=
  u8 (mem (bytes block)).

Definition wire_sr (mem : memory) (block : GUtilData) : bool :=
  bit_set (wire_hdr mem block) NFC_NDEF_HDR_SR.

Definition wire_il (mem : memory) (block : GUtilData) : bool :=
  bit_set (wire_hdr mem block) NFC_NDEF_HDR_IL.

Definition wire_type_length (mem : memory) (block : GUtilData) : Z :=
  u8 (mem (bytes block + 1)).

Definition wire_payload_length (mem : memory) (block : GUtilData) : Z :=
  if wire_sr mem block then u8 (mem (bytes block + 2))
  else u8 (mem (bytes block + 2)) * 2 ^ 24
       + u8 (mem (bytes block + 3)) * 2 ^ 16
       + u8 (mem (bytes block + 4)) * 2 ^ 8
       + u8 (mem (bytes block + 5)).

Definition wire_type_offset (mem : memory) (block : GUtilData) : Z :=
  2 + (if wire_sr mem block then 1 else 4)
    + (if wire_il mem block then 1 else 0).

Definition wire_id_length (mem : memory) (block : GUtilData) : Z :=
  if wire_il mem block
  then u8 (mem (bytes block + (wire_type_offset mem block - 1)))
  else 0.

Definition wire_total (mem : memory) (block : GUtilData) : Z :=
  wire_type_offset mem block + wire_type_length mem block
  + wire_id_length mem block + wire_payload_length mem block.

(** The record the layout describes, when the block holds all of it and
    the payload length is below 2^31. *)
Definition wire_record (mem : memory) (block : GUtilData)
  : option (NfcNdefData * GUtilData) :=
  if (3 <=? size block) && (wire_payload_length mem block <? 2 ^ 31)
     && (wire_total mem block <=? size block)
  then Some (mkNdef (mkData (bytes block) (wire_total mem block))
                    (wire_type_offset mem block)
                    (wire_type_length mem block)
                    (wire_id_length mem block)
                    (wire_payload_length mem block),
             mkData (bytes block + wire_total mem block)
                    (size block - wire_total mem block))
  else None.

(** Two memories hold the same bytes in a view. *)
Definition agree_on (v : GUtilData) (m1 m2 : memory) : Prop :=
  forall a, in_view v a -> m1 a = m2 a.

(** The wire bytes of the records of a chain, one after the other. *)
Definition chain_wire (chain : list NfcNdefRec) : list byte :=
  concat (map raw chain).

(* ------------------------------------------------------------------ *)
(** ** The version word ([nfc_version.h]) *)

Definition NFC_VERSION_MAJOR : Z := 1.
Definition NFC_VERSION_MINOR : Z := 1.
Definition NFC_VERSION_NANO : Z := 12.

(** [NFC_VERSION_WORD(v1,v2,v3)]. *)
Definition NFC_VERSION_WORD (v1 v2 v3 : Z) : Z :=
  Z.lor (Z.lor (Z.shiftl (Z.land v1 0x7f) 24)
               (Z.shiftl (Z.land v2 0xfff) 12))
        (Z.land v3 0xfff).

Definition NFC_VERSION_GET_MAJOR (v : Z) : Z := Z.land (Z.shiftr v 24) 0x7f.
Definition NFC_VERSION_GET_MINOR (v : Z) : Z := Z.land (Z.shiftr v 12) 0xfff.
Definition NFC_VERSION_GET_NANO (v : Z) : Z := Z.land v 0xfff.

Definition NFC_CORE_VERSION : Z :=
  NFC_VERSION_WORD NFC_VERSION_MAJOR NFC_VERSION_MINOR NFC_VERSION_NANO.

(* ------------------------------------------------------------------ *)
(** ** The record builder of the media type test *)

Section TestHelper.
Context {ext : Externals}.

(** The bytes [test_ndef_record_new] writes into the buffer it allocates:
    header [D2] (MB, ME, SR, TNF 2), the two lengths, the media type and
    the payload.  [mediatype] is the characters of the C string, so that
    [strlen] is its length; [None] is a [NULL] payload. *)
Definition test_record_bytes (mediatype : list byte)
    (payload : option GUtilData) (mem : memory) : list byte :=
  let type_length := Z.of_nat (length mediatype) in
  let payload_length := match payload with Some p => size p | None => 0 end in
  [to_u8 0xd2; to_u8 type_length; to_u8 payload_length]
  ++ mediatype
  ++ (match payload with
      | Some p => if negb (payload_length =? 0)
                  then memread mem (bytes p) payload_length else []
      | None => []
      end).

(** [test_ndef_record_new]: the chain it returns, or [None] when one of its
    three [g_assert]s fails (the two length bounds, and the parse returning
    a record). *)
Definition test_ndef_record_new (mediatype : list byte)
    (payload : option GUtilData) (mem : memory) : option (list NfcNdefRec) :=
  let type_length := Z.of_nat (length mediatype) in
  let payload_length := match payload with Some p => size p | None => 0 end in
  if negb (type_length <? 0x100) then None
  else if negb (payload_length <? 0x100) then None
  else
    let data_size := 3 + type_length
                     + match payload with Some p => size p | None => 0 end in
    let buf := test_record_bytes mediatype payload mem in
    match value (nfc_ndef_rec_new (Some (mkData 0 data_size)))
                (array_mem buf) with
    | [] => None
    | r :: chain => Some (r :: chain)
    end.

End TestHelper.

(* ================================================================== *)
(** * Properties *)

(** ** Bytes, memory, the read monad *)

Lemma u8_range (b : byte) : 0 <= u8 b < 256.
Proof.
  unfold u8. pose proof (Byte.to_N_bounded b) as H.
  split; [apply N2Z.is_nonneg|]. lia.
Qed.

Lemma u8_to_u8 (x : Z) : u8 (to_u8 x) = x mod 256.
Proof.
  unfold u8, to_u8.
  assert (Hr : 0 <= x mod 256 < 256) by (apply Z.mod_pos_bound; lia).
  destruct (Byte.of_N (Z.to_N (x mod 256))) as [b|] eqn:E.
  - apply Byte.to_of_N in E. rewrite E. rewrite Z2N.id; lia.
  - exfalso. apply Byte.of_N_None_iff in E. lia.
Qed.

Lemma u32_small x : 0 <= x < 2 ^ 32 -> u32 x = x.
Proof. intros. unfold u32. now apply Z.mod_small. Qed.



Ltac u32_simpl :=
  repeat match goal with
         | |- context [u32 ?x] => rewrite (u32_small x) by lia
         | H : context [u32 ?x] |- _ => rewrite (u32_small x) in H by lia
         end.

Lemma Some_pair_inj {A B} (a c : A) (b d : B) :
  Some (a, b) = Some (c, d) -> a = c /\ b = d.
Proof. intros E. injection E as -> ->. now split. Qed.

Lemma memread_length mem p n : length (memread mem p n) = Z.to_nat n.
Proof. unfold memread. now rewrite length_map, length_seq. Qed.

Lemma memread_nth mem p n (i : nat) :
  (i < Z.to_nat n)%nat -> nth i (memread mem p n) x00 = mem (p + Z.of_nat i).
Proof.
  intros Hi. unfold memread.
  rewrite nth_indep with (d' := mem (p + Z.of_nat 0)) by
    (rewrite length_map, length_seq; exact Hi).
  rewrite (map_nth (fun i => mem (p + Z.of_nat i))).
  now rewrite seq_nth.
Qed.

Lemma memread_array buf :
  memread (array_mem buf) 0 (Z.of_nat (length buf)) = buf.
Proof.
  apply nth_ext with (d := x00) (d' := x00).
  - rewrite memread_length. lia.
  - intros i Hi. rewrite memread_length in Hi.
    rewrite memread_nth by exact Hi. unfold array_mem.
    destruct (0 + Z.of_nat i <? 0) eqn:E; [lia|].
    f_equal. lia.
Qed.

Lemma map_seq_from {A} (n : nat) : forall (f : nat -> A) s,
  map f (seq s n) = map (fun i => f (s + i)%nat) (seq 0 n).
Proof.
  induction n as [|n IH]; intros f s; [reflexivity|].
  cbn [seq map]. rewrite Nat.add_0_r. f_equal.
  rewrite (IH f (S s)), (IH (fun i => f (s + i)%nat) 1%nat).
  apply map_ext. intros i. f_equal. lia.
Qed.

Lemma memread_app mem p a b :
  0 <= a -> 0 <= b ->
  memread mem p (a + b) = memread mem p a ++ memread mem (p + a) b.
Proof.
  intros Ha Hb. unfold memread.
  rewrite Z2Nat.inj_add by assumption.
  rewrite seq_app, map_app. f_equal.
  rewrite map_seq_from. apply map_ext. intros i. f_equal. lia.
Qed.

(** A view that holds [l] holds [nth i l] at its [i]-th address. *)
Lemma view_nth mem v l (i : nat) :
  view_bytes mem v = l -> (i < length l)%nat ->
  mem (bytes v + Z.of_nat i) = nth i l x00.
Proof.
  intros <- Hi. unfold view_bytes in *. rewrite memread_length in Hi.
  now rewrite memread_nth.
Qed.

Lemma value_bind {A B} (m : Rd A) (k : A -> Rd B) mem :
  value (bind m k) mem = value (k (value m mem)) mem.
Proof.
  unfold value, bind. destruct (m mem) as [a t1]. cbn [fst].
  now destruct (k a mem).
Qed.

(** ** The record parser *)

Lemma be32_nonneg a b c d :
  0 <= a -> 0 <= b -> 0 <= c -> 0 <= d ->
  0 <= Z.lor (Z.lor (Z.lor (u32 (Z.shiftl a 24)) (u32 (Z.shiftl b 16)))
                    (u32 (Z.shiftl c 8))) d.
Proof.
  intros. repeat (apply Z.lor_nonneg; split); try assumption;
  unfold u32; apply Z.mod_pos_bound; lia.
Qed.

Ltac parse_cases mem block :=
  unfold nfc_ndef_rec_parse, value, reads;
  destruct (size block <? 3) eqn:Hsz;
  [ | apply Z.ltb_ge in Hsz;
      unfold bind, load, ret;
      pose proof (u8_range (mem (bytes block + 0))) as Hb0;
      pose proof (u8_range (mem (bytes block + 1))) as Hb1;
      pose proof (u8_range (mem (bytes block + 2))) as Hb2;
      pose proof (u8_range (mem (bytes block + (2 + 1)))) as Hb3;
      pose proof (u8_range (mem (bytes block + (2 + 2)))) as Hb4;
      pose proof (u8_range (mem (bytes block + (2 + 3)))) as Hb5;
      pose proof (u8_range (mem (bytes block + (2 + 4)))) as Hb6 ].

(** A block of fewer than three bytes fails before any byte is read. *)
Lemma parse_too_short mem block :
  size block < 3 -> nfc_ndef_rec_parse block mem = (None, []).
Proof.
  intros H. unfold nfc_ndef_rec_parse.
  apply Z.ltb_lt in H. now rewrite H.
Qed.

(** A successful parse: the lengths add up inside the block, and every
    byte that was read lies inside the block. *)
Lemma parse_success mem block ndef rest :
  value (nfc_ndef_rec_parse block) mem = Some (ndef, rest) ->
  parse_ok block ndef rest /\
  Forall (in_view block) (reads (nfc_ndef_rec_parse block) mem).
Proof.
  parse_cases mem block; [discriminate|].
  destruct (bit_set _ NFC_NDEF_HDR_SR); destruct (bit_set _ NFC_NDEF_HDR_IL).
  all: match goal with
       | |- context [?a <? 0x80000000] =>
           destruct (a <? 0x80000000) eqn:Hpl; cbn [andb]; [|discriminate];
           apply Z.ltb_lt in Hpl
       end.
  all: match goal with
       | |- context [?a <=? size ?blk] =>
           destruct (a <=? size blk) eqn:Hfit; [|discriminate];
           apply Z.leb_le in Hfit
       end.
  all: try match type of Hpl with
       | Z.lor _ _ < _ =>
           match type of Hpl with
           | ?p < _ => assert (Hp0 : 0 <= p) by (apply be32_nonneg; lia)
           end
       end.
  all: cbn [fst snd app]; intros E; apply Some_pair_inj in E;
    destruct E as [<- <-].
  all: u32_simpl.
  all: split;
    [ constructor;
      cbn [rec bytes size type_offset type_length id_length payload_length];
      try lia; reflexivity
    | repeat (apply Forall_cons; [unfold in_view; lia|]); apply Forall_nil ].
Qed.

(** Without the IL bit no ID length is read and the descriptor has no
    ID. *)
Lemma parse_no_il mem block ndef rest :
  value (nfc_ndef_rec_parse block) mem = Some (ndef, rest) ->
  bit_set (u8 (mem (bytes block))) NFC_NDEF_HDR_IL = false ->
  id_length ndef = 0.
Proof.
  parse_cases mem block; [discriminate|].
  intros E HIL. rewrite Z.add_0_r in E. rewrite HIL in E.
  destruct (bit_set _ NFC_NDEF_HDR_SR).
  all: match type of E with
       | context [?a && ?b] => destruct (a && b)
       end; [|discriminate].
  all: apply Some_pair_inj in E; destruct E as [<- _]; reflexivity.
Qed.

(** The addresses the parser reads: the header and the type length, then
    one or four bytes of payload length, then the ID length if IL is set.
    The list depends on nothing but the header byte. *)
Lemma parse_reads mem block :
  reads (nfc_ndef_rec_parse block) mem =
  if size block <? 3 then []
  else
    let hdr := u8 (mem (bytes block + 0)) in
    [bytes block + 0; bytes block + 1] ++
    (if bit_set hdr NFC_NDEF_HDR_SR then [bytes block + 2]
     else [bytes block + 2; bytes block + (2 + 1);
           bytes block + (2 + 2); bytes block + (2 + 3)]) ++
    (if bit_set hdr NFC_NDEF_HDR_IL then
       [bytes block + (if bit_set hdr NFC_NDEF_HDR_SR then 2 + 1 else 2 + 4)]
     else []).
Proof.
  parse_cases mem block; [reflexivity|].
  cbv zeta.
  destruct (bit_set _ NFC_NDEF_HDR_SR); destruct (bit_set _ NFC_NDEF_HDR_IL).
  all: match goal with
       | |- context [?a && ?b] => destruct (a && b)
       end; reflexivity.
Qed.

(** Completeness, short form: a short record without ID whose lengths fit
    parses, and the descriptor is the expected one. *)
Lemma parse_short_form mem block :
  let hdr := u8 (mem (bytes block + 0)) in
  let tl := u8 (mem (bytes block + 1)) in
  let pl := u8 (mem (bytes block + 2)) in
  bit_set hdr NFC_NDEF_HDR_SR = true ->
  bit_set hdr NFC_NDEF_HDR_IL = false ->
  3 + tl + pl <= size block ->
  value (nfc_ndef_rec_parse block) mem =
  Some (mkNdef (mkData (bytes block) (3 + tl + pl)) 3 tl 0 pl,
        mkData (bytes block + (3 + tl + pl)) (size block - (3 + tl + pl))).
Proof.
  intros hdr tl pl HSR HIL Hfit. subst hdr tl pl.
  pose proof (u8_range (mem (bytes block + 1))).
  pose proof (u8_range (mem (bytes block + 2))).
  parse_cases mem block; [apply Z.ltb_lt in Hsz; lia|].
  rewrite HSR, HIL. cbn [fst snd].
  u32_simpl.
  replace (1 + (1 + u8 (mem (bytes block + 1)))
           + (1 + u8 (mem (bytes block + 2))))
    with (3 + u8 (mem (bytes block + 1)) + u8 (mem (bytes block + 2)))
    by lia.
  destruct (_ <? 0x80000000) eqn:A; [|apply Z.ltb_ge in A; lia].
  destruct (_ <=? size block) eqn:B; [|apply Z.leb_gt in B; lia].
  reflexivity.
Qed.

(** Completeness, long form. *)
Lemma parse_long_form mem block :
  let hdr := u8 (mem (bytes block + 0)) in
  let tl := u8 (mem (bytes block + 1)) in
  let pl := Z.lor (Z.lor (Z.lor
              (u32 (Z.shiftl (u8 (mem (bytes block + 2))) 24))
              (u32 (Z.shiftl (u8 (mem (bytes block + (2 + 1)))) 16)))
              (u32 (Z.shiftl (u8 (mem (bytes block + (2 + 2)))) 8)))
              (u8 (mem (bytes block + (2 + 3)))) in
  bit_set hdr NFC_NDEF_HDR_SR = false ->
  bit_set hdr NFC_NDEF_HDR_IL = false ->
  pl < 2 ^ 31 ->
  6 + tl + pl <= size block ->
  value (nfc_ndef_rec_parse block) mem =
  Some (mkNdef (mkData (bytes block) (6 + tl + pl)) 6 tl 0 pl,
        mkData (bytes block + (6 + tl + pl)) (size block - (6 + tl + pl))).
Proof.
  intros hdr tl pl HSR HIL Hpl Hfit.
  pose proof (u8_range (mem (bytes block + 1))).
  assert (Hp0 : 0 <= pl)
    by (apply be32_nonneg; apply u8_range).
  parse_cases mem block; [apply Z.ltb_lt in Hsz; subst tl; lia|].
  fold hdr. rewrite HSR, HIL. cbn [fst snd].
  fold tl. fold pl.
  u32_simpl.
  replace (1 + (1 + tl) + (4 + pl)) with (6 + tl + pl) by lia.
  destruct (pl <? 0x80000000) eqn:A; [|apply Z.ltb_ge in A; lia].
  destruct (_ <=? size block) eqn:B; [|apply Z.leb_gt in B; lia].
  reflexivity.
Qed.

Lemma testbit_mod256 x n : 0 <= n ->
  Z.testbit (x mod 256) n = (n <? 8) && Z.testbit x n.
Proof.
  intros Hn. change 256 with (2 ^ 8).
  destruct (n <? 8) eqn:E.
  - apply Z.ltb_lt in E. now rewrite Z.mod_pow2_bits_low by lia.
  - apply Z.ltb_ge in E. now rewrite Z.mod_pow2_bits_high by lia.
Qed.

Lemma testbit_be_part x k n :
  0 <= k -> k + 8 <= 32 -> 0 <= n ->
  Z.testbit (u32 (Z.shiftl (Z.shiftr x k mod 256) k)) n =
  (k <=? n) && (n <? k + 8) && Z.testbit x n.
Proof.
  intros Hk Hk2 Hn. unfold u32.
  destruct (n <? 32) eqn:E32.
  - apply Z.ltb_lt in E32. rewrite Z.mod_pow2_bits_low by lia.
    rewrite Z.shiftl_spec by lia.
    destruct (k <=? n) eqn:Ek.
    + apply Z.leb_le in Ek. rewrite testbit_mod256 by lia.
      rewrite Z.shiftr_spec by lia.
      replace (n - k + k) with n by lia.
      cbn [andb]. f_equal.
      destruct (n - k <? 8) eqn:A, (n <? k + 8) eqn:B; try reflexivity;
        rewrite ?Z.ltb_lt, ?Z.ltb_ge in *; lia.
    + apply Z.leb_gt in Ek. rewrite Z.testbit_neg_r by lia. reflexivity.
  - apply Z.ltb_ge in E32. rewrite Z.mod_pow2_bits_high by lia.
    destruct (n <? k + 8) eqn:B; [apply Z.ltb_lt in B; lia|].
    now rewrite andb_false_r.
Qed.

Lemma testbit_above_32 x n :
  0 <= x < 2 ^ 32 -> 32 <= n -> Z.testbit x n = false.
Proof.
  intros Hx Hn.
  destruct (Z.eq_dec x 0) as [->|Hne]; [apply Z.bits_0|].
  apply Z.bits_above_log2; [lia|].
  apply Z.log2_lt_pow2; [lia|].
  eapply Z.lt_le_trans; [apply Hx|].
  apply Z.pow_le_mono_r; lia.
Qed.

(** The four payload length bytes the synthesizer writes read back as the
    length. *)
Lemma be32_roundtrip x :
  0 <= x < 2 ^ 32 ->
  Z.lor (Z.lor (Z.lor (u32 (Z.shiftl (Z.shiftr x 24 mod 256) 24))
                      (u32 (Z.shiftl (Z.shiftr x 16 mod 256) 16)))
               (u32 (Z.shiftl (Z.shiftr x 8 mod 256) 8)))
        (x mod 256) = x.
Proof.
  intros Hx. apply Z.bits_inj'. intros n Hn.
  rewrite !Z.lor_spec, !testbit_be_part, testbit_mod256 by lia.
  destruct (Z.testbit x n) eqn:T.
  - assert (n < 32).
    { destruct (Z.ltb_spec n 32) as [|Hge]; [assumption|].
      rewrite testbit_above_32 in T by assumption. discriminate. }
    rewrite !andb_true_r.
    destruct (24 <=? n) eqn:A, (16 <=? n) eqn:B, (8 <=? n) eqn:C,
             (n <? 24 + 8) eqn:D, (n <? 16 + 8) eqn:E, (n <? 8 + 8) eqn:F,
             (n <? 8) eqn:G; try reflexivity;
      rewrite ?Z.leb_le, ?Z.leb_gt, ?Z.ltb_lt, ?Z.ltb_ge in *; lia.
  - now rewrite !andb_false_r.
Qed.

(** ** The chain-building loop *)

Section Loop.
Context {ext : Externals}.

Lemma loop_step fuel data chain mem :
  value (nfc_ndef_rec_new_loop (S fuel) data chain) mem =
  if 0 <? size data then
    match value (nfc_ndef_rec_parse data) mem with
    | Some (ndef, data') =>
        if chunked mem ndef then
          value (nfc_ndef_rec_new_loop fuel data' chain) mem
        else
          value (nfc_ndef_rec_new_loop fuel data'
                   (chain ++ [nfc_ndef_rec_alloc ndef mem])) mem
    | None => chain
    end
  else chain.
Proof.
  cbn [nfc_ndef_rec_new_loop].
  destruct (0 <? size data); [|reflexivity].
  rewrite value_bind.
  destruct (value (nfc_ndef_rec_parse data) mem) as [[ndef data']|];
    [|reflexivity].
  rewrite value_bind. unfold chunked.
  change (value (peek (fun mem0 => u8 (mem0 (bytes (rec ndef))))) mem)
    with (u8 (mem (bytes (rec ndef)))).
  destruct (bit_set _ NFC_NDEF_HDR_CF); [reflexivity|].
  now rewrite value_bind.
Qed.

(** Records are only ever appended to what the loop has built. *)
Lemma loop_acc fuel : forall data chain mem,
  value (nfc_ndef_rec_new_loop fuel data chain) mem =
  chain ++ value (nfc_ndef_rec_new_loop fuel data []) mem.
Proof.
  induction fuel as [|fuel IH]; intros data chain mem.
  - cbn. now rewrite app_nil_r.
  - rewrite !loop_step.
    destruct (0 <? size data); [|now rewrite app_nil_r].
    destruct (value (nfc_ndef_rec_parse data) mem) as [[ndef data']|];
      [|now rewrite app_nil_r].
    destruct (chunked mem ndef).
    + apply IH.
    + rewrite (IH data' (chain ++ _)), (IH data' ([] ++ _)).
      now rewrite <- app_assoc.
Qed.

(** The loop ends before its fuel does: any fuel from the block size on
    gives the same chain. *)
Lemma loop_fuel fuel1 : forall fuel2 data chain mem,
  (Z.to_nat (size data) <= fuel1)%nat ->
  (Z.to_nat (size data) <= fuel2)%nat ->
  value (nfc_ndef_rec_new_loop fuel1 data chain) mem =
  value (nfc_ndef_rec_new_loop fuel2 data chain) mem.
Proof.
  induction fuel1 as [|fuel1 IH]; intros fuel2 data chain mem H1 H2.
  - destruct fuel2 as [|fuel2]; [reflexivity|].
    rewrite loop_step. destruct (0 <? size data) eqn:E; [|reflexivity].
    apply Z.ltb_lt in E. lia.
  - destruct fuel2 as [|fuel2].
    + rewrite loop_step. destruct (0 <? size data) eqn:E; [|reflexivity].
      apply Z.ltb_lt in E. lia.
    + rewrite !loop_step. destruct (0 <? size data) eqn:E; [|reflexivity].
      destruct (value (nfc_ndef_rec_parse data) mem) as [[ndef data']|] eqn:P;
        [|reflexivity].
      apply parse_success in P. destruct P as [[] _].
      assert (Z.to_nat (size data') <= fuel1)%nat by (subst data'; cbn; lia).
      assert (Z.to_nat (size data') <= fuel2)%nat by (subst data'; cbn; lia).
      destruct (chunked mem ndef); now apply IH.
Qed.

(** The loop, one round at a time. *)
Lemma records_from_eq mem data :
  records_from mem data =
  if 0 <? size data then
    match value (nfc_ndef_rec_parse data) mem with
    | Some (ndef, data') =>
        (if chunked mem ndef then [] else [nfc_ndef_rec_alloc ndef mem])
        ++ records_from mem data'
    | None => []
    end
  else [].
Proof.
  unfold records_from.
  destruct (0 <? size data) eqn:E.
  - apply Z.ltb_lt in E.
    destruct (Z.to_nat (size data)) as [|fuel] eqn:F; [lia|].
    rewrite loop_step. apply Z.ltb_lt in E. rewrite E.
    destruct (value (nfc_ndef_rec_parse data) mem) as [[ndef data']|] eqn:P;
      [|reflexivity].
    apply parse_success in P. destruct P as [[] _].
    assert (Z.to_nat (size data') <= fuel)%nat by (subst data'; cbn; lia).
    destruct (chunked mem ndef).
    + now apply loop_fuel.
    + rewrite loop_acc. cbn [app]. f_equal. now apply loop_fuel.
  - apply Z.ltb_ge in E. replace (Z.to_nat (size data)) with O by lia.
    reflexivity.
Qed.

Lemma rec_new_value mem block :
  value (nfc_ndef_rec_new (Some block)) mem =
  if size block =? 0 then [g_object_new] else records_from mem block.
Proof.
  unfold nfc_ndef_rec_new. now destruct (size block =? 0).
Qed.

End Loop.

(* ------------------------------------------------------------------ *)
(** ** Boundary inputs *)

(** C6: [nfc_ndef_rec_new] applied to a block of zero bytes returns exactly
    one record; its TNF is Empty, its RTD Unknown, its payload the empty
    view, its flags empty, and it has no successor.  No byte is read. *)
Theorem empty_input_single_empty_record {ext : Externals}
    (mem : memory) (p : Z) :
  exists r,
    nfc_ndef_rec_new (Some (mkData p 0)) mem = ([r], []) /\
    tnf r = NFC_NDEF_TNF_EMPTY /\
    rtd r = NFC_NDEF_RTD_UNKNOWN /\
    payload r = null_view /\ view_of r (payload r) = [] /\
    flags r = mkFlags false false /\
    next [r] 0 = None.
Proof.
  exists g_object_new. repeat split; reflexivity.
Qed.

(** C7: for a non-empty block of fewer than three bytes
    [nfc_ndef_rec_new] returns nothing, and the record parse fails before
    it reads any byte. *)
Theorem short_input_returns_nothing {ext : Externals}
    (mem : memory) (block : GUtilData) :
  0 < size block < 3 ->
  nfc_ndef_rec_new (Some block) mem = ([], []) /\
  nfc_ndef_rec_parse block mem = (None, []).
Proof.
  intros H.
  assert (P : nfc_ndef_rec_parse block mem = (None, []))
    by (apply parse_too_short; lia).
  split; [|exact P].
  unfold nfc_ndef_rec_new.
  destruct (size block =? 0) eqn:E; [apply Z.eqb_eq in E; lia|].
  cbn [negb].
  destruct (Z.to_nat (size block)) as [|fuel] eqn:F; [lia|].
  cbn [nfc_ndef_rec_new_loop].
  destruct (0 <? size block) eqn:G; [|apply Z.ltb_ge in G; lia].
  unfold bind. now rewrite P.
Qed.

Lemma short_input_returns_nothing_witness :
  0 < size (whole (bytes_of [0xd1; 1])) < 3 /\
  @nfc_ndef_rec_new sample_ext (Some (whole (bytes_of [0xd1; 1])))
    (array_mem (bytes_of [0xd1; 1])) = ([], []).
Proof.
  split; [cbn; lia|].
  apply (@short_input_returns_nothing sample_ext). cbn; lia.
Defined.

(** C1, at a failing input: on the three-byte block [00 00 00] (long form,
    so four length bytes are fetched) the parser indexes the addresses 3, 4
    and 5, which lie past the end of the block, whatever the memory holds
    there; the parse then fails and nothing is returned. *)
Theorem parser_reads_past_three_byte_block {ext : Externals}
    (beyond : memory) :
  let b := whole [x00; x00; x00] in
  let mem := place [x00; x00; x00] beyond in
  nfc_ndef_rec_new (Some b) mem = ([], [0; 1; 2; 3; 4; 5]) /\
  Exists (fun a => ~ in_view b a) (reads (nfc_ndef_rec_new (Some b)) mem).
Proof.
  intros b mem.
  assert (R : reads (nfc_ndef_rec_parse b) mem = [0; 1; 2; 3; 4; 5])
    by (rewrite parse_reads; reflexivity).
  assert (V : value (nfc_ndef_rec_parse b) mem = None).
  { destruct (value (nfc_ndef_rec_parse b) mem) as [[ndef rest]|] eqn:P;
      [|reflexivity].
    apply parse_success in P. destruct P as [_ P]. rewrite R in P.
    do 3 (apply Forall_inv_tail in P). apply Forall_inv in P.
    unfold in_view in P. cbn in P. lia. }
  assert (N : nfc_ndef_rec_new (Some b) mem = ([], [0; 1; 2; 3; 4; 5])).
  { change (nfc_ndef_rec_new (Some b) mem)
      with (nfc_ndef_rec_new_loop 3 b [] mem).
    cbn [nfc_ndef_rec_new_loop].
    change (0 <? size b) with true. cbv iota.
    unfold bind. unfold value, reads in V, R.
    destruct (nfc_ndef_rec_parse b mem) as [v t].
    cbn [fst snd] in V, R. subst v t. reflexivity. }
  split; [exact N|].
  unfold reads. rewrite N. cbn [snd].
  do 3 apply Exists_cons_tl. apply Exists_cons_hd.
  unfold in_view. cbn. lia.
Qed.

(* ------------------------------------------------------------------ *)
(** ** Records in a chain *)

Lemma memread_head mem p n :
  0 < n -> exists tl, memread mem p n = mem p :: tl.
Proof.
  intros Hn. unfold memread.
  destruct (Z.to_nat n) as [|k] eqn:E; [lia|].
  cbn [seq map]. rewrite Z.add_0_r. eauto.
Qed.

Section Records.
Context {ext : Externals}.

(** Whatever variant the factory picks, the common part of the record is
    the one [nfc_ndef_rec_initialize] builds from the descriptor. *)
Lemma alloc_shape ndef mem :
  size (rec ndef) <> 0 ->
  exists rtd0 v,
    nfc_ndef_rec_alloc ndef mem =
    set_variant (nfc_ndef_rec_initialize g_object_new rtd0 ndef mem) v.
Proof.
  intros Hs. unfold nfc_ndef_rec_alloc.
  apply Z.eqb_neq in Hs. rewrite Hs. cbn [negb].
  assert (G : exists rtd0 v,
             generic_rec ndef mem =
             set_variant (nfc_ndef_rec_initialize g_object_new rtd0 ndef mem) v)
    by (exists NFC_NDEF_RTD_UNKNOWN, GenericRecord; reflexivity).
  destruct (gutil_data_equal mem _ nfc_ndef_rec_type_u).
  - unfold nfc_ndef_rec_u_new_from_data.
    destruct (uri_decode mem ndef); [eauto|exact G].
  - destruct (gutil_data_equal mem _ nfc_ndef_rec_type_t); [|exact G].
    unfold nfc_ndef_rec_t_new_from_data.
    destruct (text_decode mem ndef) as [[[lang text] utf16]|]; [eauto|exact G].
Qed.

(** Every record of a chain was built from a descriptor that parsed and
    whose record is not chunked. *)
Lemma records_from_shape mem (n : nat) : forall data r,
  (Z.to_nat (size data) <= n)%nat ->
  In r (records_from mem data) ->
  exists ndef rtd0 v,
    r = set_variant (nfc_ndef_rec_initialize g_object_new rtd0 ndef mem) v /\
    chunked mem ndef = false /\ 3 <= size (rec ndef).
Proof.
  induction n as [|n IH]; intros data r Hn Hin;
    rewrite records_from_eq in Hin;
    destruct (0 <? size data) eqn:E; try (now destruct Hin);
    apply Z.ltb_lt in E; [lia|].
  destruct (value (nfc_ndef_rec_parse data) mem) as [[ndef data']|] eqn:P;
    [|now destruct Hin].
  apply parse_success in P. destruct P as [[] _].
  apply in_app_or in Hin. destruct Hin as [Hin|Hin].
  - destruct (chunked mem ndef) eqn:C; [now destruct Hin|].
    destruct Hin as [<-|[]].
    destruct (alloc_shape ndef mem) as (rtd0 & v & ->); [lia|].
    exists ndef, rtd0, v. repeat split; [assumption|lia].
  - apply (IH data'); [subst data'; cbn; lia|assumption].
Qed.

Lemma rec_new_shape mem block r :
  In r (value (nfc_ndef_rec_new (Some block)) mem) ->
  r = g_object_new \/
  exists ndef rtd0 v,
    r = set_variant (nfc_ndef_rec_initialize g_object_new rtd0 ndef mem) v /\
    chunked mem ndef = false /\ 3 <= size (rec ndef).
Proof.
  rewrite rec_new_value. destruct (size block =? 0).
  - intros [<-|[]]. now left.
  - intros Hin. right. now apply (records_from_shape mem _ block r (le_n _)).
Qed.

(** The header of an initialized record is the byte the descriptor points
    at. *)
Lemma initialize_header self rtd0 ndef mem v :
  0 < size (rec ndef) ->
  header (set_variant (nfc_ndef_rec_initialize self rtd0 ndef mem) v) =
  Some (u8 (mem (bytes (rec ndef)))).
Proof.
  intros Hs. unfold header. cbn [set_variant nfc_ndef_rec_initialize raw].
  destruct (memread_head mem (bytes (rec ndef)) _ Hs) as [tl ->].
  reflexivity.
Qed.

End Records.

(* ------------------------------------------------------------------ *)
(** ** Chunked records *)

(** A parsed sequence splits at each of its records. *)
Lemma parses_split mem pre : forall data ndef post rest,
  parses mem data (pre ++ ndef :: post) rest ->
  exists mid after,
    parses mem data pre mid /\
    value (nfc_ndef_rec_parse mid) mem = Some (ndef, after) /\
    parses mem after post rest.
Proof.
  induction pre as [|nd pre IH]; intros data ndef post rest H;
    inversion H as [|d n d' l r P T]; subst.
  - exists data, d'. repeat split; [constructor|assumption|assumption].
  - destruct (IH _ _ _ _ T) as (mid & after & H1 & H2 & H3).
    exists mid, after. repeat split; [|assumption|assumption].
    econstructor; eassumption.
Qed.

Section Skipping.
Context {ext : Externals}.

(** The loop goes through every record that parses, links the ones that are
    not chunked, and carries on with the block left. *)
Lemma records_from_parses mem data ndefs rest :
  parses mem data ndefs rest ->
  records_from mem data = records_of mem ndefs ++ records_from mem rest.
Proof.
  induction 1 as [data|data ndef data' ndefs rest P _ IH]; [reflexivity|].
  rewrite records_from_eq, P.
  pose proof (parse_success _ _ _ _ P) as [[Kb Kt Ko Kf Ktl Kil Kpl Kr] _].
  destruct (0 <? size data) eqn:E; [|apply Z.ltb_ge in E; lia].
  cbn [records_of flat_map]. rewrite <- app_assoc. f_equal. exact IH.
Qed.

Lemma rec_new_parses mem block ndef ndefs rest :
  parses mem block (ndef :: ndefs) rest ->
  value (nfc_ndef_rec_new (Some block)) mem =
  records_of mem (ndef :: ndefs) ++ records_from mem rest.
Proof.
  intros H. rewrite rec_new_value.
  inversion H as [|d n d' l r P T]; subst.
  pose proof (parse_success _ _ _ _ P) as [[Kb Kt Ko Kf Ktl Kil Kpl Kr] _].
  destruct (size block =? 0) eqn:Z0; [apply Z.eqb_eq in Z0; lia|].
  now apply records_from_parses.
Qed.

Lemma records_of_app mem l1 l2 :
  records_of mem (l1 ++ l2) = records_of mem l1 ++ records_of mem l2.
Proof. unfold records_of. apply flat_map_app. Qed.

Lemma records_of_in mem ndefs nd :
  In nd ndefs -> chunked mem nd = false ->
  In (nfc_ndef_rec_alloc nd mem) (records_of mem ndefs).
Proof.
  intros Hin Hc. unfold records_of. apply in_flat_map.
  exists nd. split; [exact Hin|]. rewrite Hc. now left.
Qed.

End Skipping.

(** C4: no record whose header byte has the CF bit set appears in the chain
    [nfc_ndef_rec_new] returns.  When the first record of a block parses
    and is chunked, the chain is the one built from the bytes after it.
    And wherever a chunked record parses in the stream, after any records
    before it, exactly its total bytes are consumed, the parse carries on
    with the record that follows, and the chain is the records before it
    followed by the records after it and by whatever the block left gives:
    every record that parses before or after it and is not chunked is
    returned, in order. *)
Theorem chunked_records_dropped {ext : Externals}
    (mem : memory) (block : GUtilData) :
  (forall r h,
     In r (value (nfc_ndef_rec_new (Some block)) mem) ->
     header r = Some h ->
     bit_set h NFC_NDEF_HDR_CF = false) /\
  (forall ndef rest,
     value (nfc_ndef_rec_parse block) mem = Some (ndef, rest) ->
     chunked mem ndef = true ->
     rest = mkData (bytes block + size (rec ndef))
                   (size block - size (rec ndef)) /\
     value (nfc_ndef_rec_new (Some block)) mem = records_from mem rest /\
     (0 < size rest ->
      value (nfc_ndef_rec_new (Some block)) mem =
      value (nfc_ndef_rec_new (Some rest)) mem)) /\
  (forall pre ndef post rest,
     parses mem block (pre ++ ndef :: post) rest ->
     chunked mem ndef = true ->
     exists mid,
       let after := mkData (bytes mid + size (rec ndef))
                           (size mid - size (rec ndef)) in
       parses mem block pre mid /\
       value (nfc_ndef_rec_parse mid) mem = Some (ndef, after) /\
       3 <= size (rec ndef) <= size mid /\
       parses mem after post rest /\
       value (nfc_ndef_rec_new (Some block)) mem =
       records_of mem pre ++ records_of mem post ++ records_from mem rest /\
       (forall nd, In nd (pre ++ post) -> chunked mem nd = false ->
          In (nfc_ndef_rec_alloc nd mem)
             (value (nfc_ndef_rec_new (Some block)) mem))).
Proof.
  split; [|split].
  - intros r h Hin Hh.
    apply rec_new_shape in Hin.
    destruct Hin as [->|(ndef & rtd0 & v & -> & Hc & Hs)]; [discriminate|].
    rewrite initialize_header in Hh by lia.
    injection Hh as <-. exact Hc.
  - intros ndef rest P C.
    pose proof (parse_success _ _ _ _ P) as [[] _].
    assert (E : value (nfc_ndef_rec_new (Some block)) mem
                = records_from mem rest).
    { rewrite rec_new_value.
      destruct (size block =? 0) eqn:Z0; [apply Z.eqb_eq in Z0; lia|].
      rewrite records_from_eq.
      destruct (0 <? size block) eqn:Z1; [|apply Z.ltb_ge in Z1; lia].
      now rewrite P, C. }
    repeat split; [assumption|exact E|].
    intros Hr. rewrite E, rec_new_value.
    destruct (size rest =? 0) eqn:Z0; [apply Z.eqb_eq in Z0; lia|].
    reflexivity.
  - intros pre ndef post rest Hp C.
    destruct (parses_split _ _ _ _ _ _ Hp) as (mid & after & H1 & H2 & H3).
    pose proof (parse_success _ _ _ _ H2)
      as [[Kb Kt Ko Kf Ktl Kil Kpl Kr] _].
    assert (Kb' : bytes mid = bytes (rec ndef)) by (now rewrite Kb).
    assert (E : value (nfc_ndef_rec_new (Some block)) mem =
                records_of mem pre ++ records_of mem post
                ++ records_from mem rest).
    { destruct (pre ++ ndef :: post) as [|n0 l0] eqn:L;
        [now destruct pre|].
      rewrite (rec_new_parses _ _ _ _ _ Hp), <- L.
      rewrite records_of_app. cbn [records_of flat_map]. rewrite C.
      cbn [app]. now rewrite <- app_assoc. }
    exists mid. cbv zeta. subst after.
    split; [exact H1|]. split; [exact H2|]. split; [lia|].
    split; [exact H3|]. split; [exact E|].
    intros nd Hin Hc. rewrite E.
    apply in_app_or in Hin. destruct Hin as [Hin|Hin].
    + apply in_or_app. left. now apply records_of_in.
    + apply in_or_app. right. apply in_or_app. left.
      now apply records_of_in.
Qed.

Lemma chunked_records_dropped_witness :
  let mem := array_mem sample_chunk_then_x in
  let mem3 := array_mem sample_chunk_mid in
  let x := mkNdef (mkData 0 4) 3 1 0 0 in
  let c := mkNdef (mkData 4 4) 3 1 0 0 in
  let y := mkNdef (mkData 8 4) 3 1 0 0 in
  (value (@nfc_ndef_rec_new sample_ext (Some (whole sample_chunk_then_x))) mem
   = value (@nfc_ndef_rec_new sample_ext (Some (mkData 4 7))) mem /\
   length (value (@nfc_ndef_rec_new sample_ext (Some (mkData 4 7))) mem)
   = 1%nat) /\
  chunked mem3 c = true /\
  value (@nfc_ndef_rec_new sample_ext (Some (whole sample_chunk_mid))) mem3
  = [@nfc_ndef_rec_alloc sample_ext x mem3;
     @nfc_ndef_rec_alloc sample_ext y mem3].
Proof.
  intros mem mem3 x c y. split; [split; [|reflexivity]|split; [reflexivity|]].
  - apply (proj1 (proj2 (@chunked_records_dropped sample_ext mem
                           (whole sample_chunk_then_x)))
             (mkNdef (mkData 0 4) 3 1 0 0) (mkData 4 7));
      [reflexivity|reflexivity|cbn; lia].
  - assert (Hp : parses mem3 (whole sample_chunk_mid) ([x] ++ c :: [y])
                   (mkData 12 0)).
    { apply parses_cons with (data' := mkData 4 8); [reflexivity|].
      apply parses_cons with (data' := mkData 8 4); [reflexivity|].
      apply parses_cons with (data' := mkData 12 0); [reflexivity|].
      apply parses_nil. }
    destruct (proj2 (proj2 (@chunked_records_dropped sample_ext mem3
                              (whole sample_chunk_mid)))
                [x] c [y] (mkData 12 0) Hp eq_refl)
      as (mid & _ & _ & _ & _ & E & _).
    rewrite E. reflexivity.
Defined.

(* ------------------------------------------------------------------ *)
(** ** The TNF of a parsed record *)

(** C2, as the code has it: a parsed record whose header carries the TNF
    field value 7 keeps the TNF of a zero-filled instance, Empty (0), as
    soon as the bound of the TNF enumeration is at most 7. *)
Theorem tnf7_left_empty {ext : Externals}
    (mem : memory) (block : GUtilData) (r : NfcNdefRec) (h : Z) :
  NFC_NDEF_TNF_MAX <= 7 ->
  In r (value (nfc_ndef_rec_new (Some block)) mem) ->
  header r = Some h ->
  7 <= Z.land h NFC_NDEF_HDR_TNF_MASK ->
  tnf r = NFC_NDEF_TNF_EMPTY.
Proof.
  intros Hmax Hin Hh H7.
  apply rec_new_shape in Hin.
  destruct Hin as [->|(ndef & rtd0 & v & -> & Hc & Hs)]; [reflexivity|].
  rewrite initialize_header in Hh by lia. injection Hh as <-.
  cbn [set_variant nfc_ndef_rec_initialize tnf].
  destruct (_ <? NFC_NDEF_TNF_MAX) eqn:E; [|reflexivity].
  apply Z.ltb_lt in E. lia.
Qed.

Lemma tnf7_left_empty_witness :
  exists r,
    value (@nfc_ndef_rec_new sample_ext (Some (whole sample_tnf7)))
          (array_mem sample_tnf7) = [r] /\
    header r = Some 0xd7 /\ tnf r = NFC_NDEF_TNF_EMPTY.
Proof.
  eexists. split; [reflexivity|]. split; [reflexivity|].
  apply (@tnf7_left_empty sample_ext (array_mem sample_tnf7)
           (whole sample_tnf7) _ 0xd7);
    [cbn; lia|left; reflexivity|reflexivity|cbn; lia].
Defined.

(** C2 as stated fails: the record parsed from [D7 01 00 78] has the TNF
    field 7 in its header, and whatever the externals are its [tnf] is not
    Unknown (5); it is Empty (0) with the sample externals. *)
Lemma tnf7_not_unknown_counterexample :
  (exists r,
     value (@nfc_ndef_rec_new sample_ext (Some (whole sample_tnf7)))
           (array_mem sample_tnf7) = [r] /\
     header r = Some 0xd7 /\ Z.land 0xd7 NFC_NDEF_HDR_TNF_MASK = 7 /\
     tnf r = 0) /\
  ~ (exists (ext : Externals) (r : NfcNdefRec),
       In r (value (@nfc_ndef_rec_new ext (Some (whole sample_tnf7)))
                   (array_mem sample_tnf7)) /\
       tnf r = TNF_UNKNOWN).
Proof.
  split.
  - eexists. repeat split; reflexivity.
  - intros (ext & r & Hin & Ht).
    apply rec_new_shape in Hin.
    destruct Hin as [->|(ndef & rtd0 & v & -> & Hc & Hs)]; [discriminate|].
    cbn [set_variant nfc_ndef_rec_initialize tnf g_object_new] in Ht.
    destruct (_ <? NFC_NDEF_TNF_MAX); unfold TNF_UNKNOWN in Ht;
      [|discriminate].
    (* the TNF field is that of some byte of the input, none of which
       has 5 in its low three bits *)
    revert Ht. generalize (rec ndef). intros g Ht.
    unfold array_mem, sample_tnf7 in Ht.
    destruct (bytes g <? 0); [discriminate|].
    destruct (Z.to_nat (bytes g)) as [|[|[|[|[|k]]]]]; cbn in Ht;
      discriminate.
Qed.

(* ------------------------------------------------------------------ *)
(** ** The views of an initialized record *)

(** C10, as the code has it: in a record initialized from a parsed
    descriptor, [payload] is the all-zero view when [payload_length = 0] and
    [id] is the all-zero view when [id_length = 0] (in particular without the
    IL bit); otherwise they point into [raw] after the type.  So [id] and
    [payload] point into [raw] only when they are not empty.  [type] is
    assigned unconditionally: it points into [raw] at [type_offset] also
    when its length is 0.  The factory [nfc_ndef_rec_alloc] returns a record
    with these views. *)
Theorem views_of_parsed_descriptor {ext : Externals}
    (mem : memory) (block : GUtilData) (ndef : NfcNdefData)
    (rest : GUtilData) (rtd0 : NFC_NDEF_RTD) :
  value (nfc_ndef_rec_parse block) mem = Some (ndef, rest) ->
  let r := nfc_ndef_rec_initialize g_object_new rtd0 ndef mem in
  payload r =
    (if payload_length ndef =? 0 then null_view
     else mkView (Some (type_offset ndef + type_length ndef + id_length ndef))
                 (payload_length ndef)) /\
  id r =
    (if id_length ndef =? 0 then null_view
     else mkView (Some (type_offset ndef + type_length ndef))
                 (id_length ndef)) /\
  (bit_set (u8 (mem (bytes block))) NFC_NDEF_HDR_IL = false ->
   id r = null_view) /\
  type r = mkView (Some (type_offset ndef)) (type_length ndef) /\
  (ptr (id r) <> None -> 0 < len (id r)) /\
  (ptr (payload r) <> None -> 0 < len (payload r)) /\
  same_wire (nfc_ndef_rec_alloc ndef mem) r.
Proof.
  intros P r.
  pose proof (parse_success _ _ _ _ P) as [[] _].
  assert (Hp : payload r =
    (if payload_length ndef =? 0 then null_view
     else mkView (Some (type_offset ndef + type_length ndef + id_length ndef))
                 (payload_length ndef))).
  { subst r. cbn [nfc_ndef_rec_initialize payload g_object_new].
    now destruct (payload_length ndef =? 0). }
  assert (Hi : id r =
    (if id_length ndef =? 0 then null_view
     else mkView (Some (type_offset ndef + type_length ndef))
                 (id_length ndef))).
  { subst r. cbn [nfc_ndef_rec_initialize id g_object_new].
    destruct (id_length ndef =? 0) eqn:E.
    - apply Z.eqb_eq in E. rewrite E. reflexivity.
    - apply Z.eqb_neq in E.
      destruct (0 <? id_length ndef) eqn:F; [reflexivity|].
      apply Z.ltb_ge in F. lia. }
  repeat split; try assumption.
  - intros HIL. rewrite Hi, (parse_no_il _ _ _ _ P HIL). reflexivity.
  - rewrite Hi. destruct (id_length ndef =? 0) eqn:E; cbn [ptr len null_view];
      [congruence|]. apply Z.eqb_neq in E. lia.
  - rewrite Hp.
    destruct (payload_length ndef =? 0) eqn:E; cbn [ptr len null_view];
      [congruence|]. apply Z.eqb_neq in E. lia.
  - destruct (alloc_shape ndef mem) as (rtd1 & v & ->); [lia|]. reflexivity.
  - destruct (alloc_shape ndef mem) as (rtd1 & v & ->); [lia|]. reflexivity.
  - destruct (alloc_shape ndef mem) as (rtd1 & v & ->); [lia|]. reflexivity.
  - destruct (alloc_shape ndef mem) as (rtd1 & v & ->); [lia|]. reflexivity.
  - destruct (alloc_shape ndef mem) as (rtd1 & v & ->); [lia|]. reflexivity.
  - destruct (alloc_shape ndef mem) as (rtd1 & v & ->); [lia|]. reflexivity.
Qed.

Lemma views_of_parsed_descriptor_witness :
  let r := @nfc_ndef_rec_initialize sample_ext g_object_new
             NFC_NDEF_RTD_UNKNOWN (mkNdef (mkData 0 4) 3 0 0 1)
             (array_mem sample_no_type) in
  payload r = mkView (Some 3) 1 /\ id r = null_view /\
  type r = mkView (Some 3) 0.
Proof.
  intros r.
  pose proof (@views_of_parsed_descriptor sample_ext
                (array_mem sample_no_type) (whole sample_no_type)
                (mkNdef (mkData 0 4) 3 0 0 1) (mkData 4 0)
                NFC_NDEF_RTD_UNKNOWN eq_refl) as (Hp & Hi & _ & Ht & _).
  exact (conj Hp (conj Hi Ht)).
Defined.

(** C10 as stated fails for [type]: the record parsed from [11 00 01 41]
    has an empty type, and its [type] view is not the all-zero view but
    points into [raw], at offset 3 (where the payload byte is), with
    length 0; this holds whatever the externals are. *)
Lemma empty_type_points_into_raw_counterexample :
  value (nfc_ndef_rec_parse (whole sample_no_type))
        (array_mem sample_no_type)
  = Some (mkNdef (mkData 0 4) 3 0 0 1, mkData 4 0) /\
  ~ (exists ext : Externals,
       let r := @nfc_ndef_rec_alloc ext (mkNdef (mkData 0 4) 3 0 0 1)
                  (array_mem sample_no_type) in
       ptr (type r) <> None -> 0 < len (type r)).
Proof.
  split; [reflexivity|].
  intros (ext & H).
  destruct (@alloc_shape ext (mkNdef (mkData 0 4) 3 0 0 1)
              (array_mem sample_no_type)) as (rtd1 & v & E);
    [cbn; lia|].
  cbv zeta in H. rewrite E in H.
  cbn [set_variant nfc_ndef_rec_initialize type ptr len type_offset
       type_length] in H.
  assert (0 < 0) by (apply H; discriminate). lia.
Qed.

(* ------------------------------------------------------------------ *)
(** ** A failing tail *)

Section Tail.
Context {ext : Externals}.

Lemma parses_records_from mem data ndefs rest :
  parses mem data ndefs rest ->
  value (nfc_ndef_rec_parse rest) mem = None ->
  records_from mem data = records_of mem ndefs.
Proof.
  intros Hp Hfail.
  induction Hp as [data|data ndef data' ndefs rest P _ IH].
  - rewrite records_from_eq, Hfail. now destruct (0 <? size data).
  - rewrite records_from_eq, P.
    pose proof (parse_success _ _ _ _ P) as [[] _].
    destruct (0 <? size data) eqn:E; [|apply Z.ltb_ge in E; lia].
    cbn [records_of flat_map]. f_equal. now apply IH.
Qed.

Lemma records_of_unchunked mem ndefs :
  Forall (fun nd => chunked mem nd = false) ndefs ->
  records_of mem ndefs = map (fun nd => nfc_ndef_rec_alloc nd mem) ndefs.
Proof.
  induction 1 as [|nd ndefs Hc _ IH]; [reflexivity|].
  cbn [records_of flat_map map]. rewrite Hc. cbn [app]. f_equal. exact IH.
Qed.

End Tail.

(** C5: when a non-empty block starts with records that parse one after the
    other and is followed by bytes on which the record parse fails,
    [nfc_ndef_rec_new] returns exactly the chain built from those records:
    one record per parsed descriptor, in order (all of them when none is
    chunked), and nothing when there is no such record.  The block of zero
    bytes is the special case of the empty NDEF message. *)
Theorem failing_tail_keeps_earlier_records {ext : Externals}
    (mem : memory) (data : GUtilData) (ndefs : list NfcNdefData)
    (rest : GUtilData) :
  size data <> 0 ->
  parses mem data ndefs rest ->
  value (nfc_ndef_rec_parse rest) mem = None ->
  let chain := value (nfc_ndef_rec_new (Some data)) mem in
  chain = records_of mem ndefs /\
  (Forall (fun nd => chunked mem nd = false) ndefs ->
   chain = map (fun nd => nfc_ndef_rec_alloc nd mem) ndefs /\
   length chain = length ndefs) /\
  (ndefs = [] -> chain = []).
Proof.
  intros Hne Hp Hfail chain.
  assert (E : chain = records_of mem ndefs).
  { subst chain. rewrite rec_new_value.
    destruct (size data =? 0) eqn:Z0; [apply Z.eqb_eq in Z0; lia|].
    now apply parses_records_from with (rest := rest). }
  split; [exact E|]. split.
  - intros Hc. rewrite E, records_of_unchunked by assumption.
    split; [reflexivity|apply length_map].
  - intros ->. exact E.
Qed.

Lemma failing_tail_keeps_earlier_records_witness :
  let mem := array_mem sample_chunk_then_x in
  let nd1 := mkNdef (mkData 0 4) 3 1 0 0 in
  let nd2 := mkNdef (mkData 4 4) 3 1 0 0 in
  value (@nfc_ndef_rec_new sample_ext (Some (whole sample_chunk_then_x))) mem
  = @records_of sample_ext mem [nd1; nd2] /\
  @records_of sample_ext mem [nd1; nd2]
  = [@nfc_ndef_rec_alloc sample_ext nd2 mem].
Proof.
  intros mem nd1 nd2. split; [|reflexivity].
  apply (@failing_tail_keeps_earlier_records sample_ext mem
           (whole sample_chunk_then_x) [nd1; nd2] (mkData 8 3)).
  - cbn. lia.
  - apply parses_cons with (data' := mkData 4 7); [reflexivity|].
    apply parses_cons with (data' := mkData 8 3); [reflexivity|].
    apply parses_nil.
  - reflexivity.
Defined.

(* ------------------------------------------------------------------ *)
(** ** TLV streams *)

Lemma tlv_next_loop_shrinks mem (fuel : nat) : forall buf t v buf',
  nfc_tlv_next_loop fuel mem buf = Some (t, v, buf') ->
  0 <= size buf' < size buf.
Proof.
  induction fuel as [|fuel IH]; intros buf t v buf'; [discriminate|].
  cbn [nfc_tlv_next_loop].
  destruct (size buf <? 1) eqn:E1; [discriminate|]. apply Z.ltb_ge in E1.
  destruct (_ =? TLV_TERMINATOR); [discriminate|].
  destruct (_ =? TLV_NULL).
  { intros H. apply IH in H. cbn [size] in H. lia. }
  destruct (size buf <? 2) eqn:E2; [discriminate|]. apply Z.ltb_ge in E2.
  pose proof (u8_range (mem (bytes buf + 1))).
  pose proof (u8_range (mem (bytes buf + 2))).
  pose proof (u8_range (mem (bytes buf + 3))).
  destruct (_ <? 0xff).
  - destruct (_ <=? size buf) eqn:F; [|discriminate]. apply Z.leb_le in F.
    intros Hs. apply Some_pair_inj in Hs. destruct Hs as [_ <-].
    cbn [size]. lia.
  - destruct (size buf <? 4); [discriminate|].
    destruct (_ <=? size buf) eqn:F; [|discriminate]. apply Z.leb_le in F.
    intros Hs. apply Some_pair_inj in Hs. destruct Hs as [_ <-].
    cbn [size].
    assert (0 <= Z.lor (Z.shiftl (u8 (mem (bytes buf + 2))) 8)
                       (u8 (mem (bytes buf + 3)))).
    { apply Z.lor_nonneg. split; [apply Z.shiftl_nonneg|]; lia. }
    lia.
Qed.

Lemma tlv_next_shrinks mem buf t v buf' :
  nfc_tlv_next mem buf = Some (t, v, buf') -> 0 <= size buf' < size buf.
Proof. apply tlv_next_loop_shrinks. Qed.

(** The walk stops at the end of the stream and at the terminator. *)
Lemma tlv_next_stops mem buf :
  size buf <= 0 \/ u8 (mem (bytes buf)) = TLV_TERMINATOR ->
  nfc_tlv_next mem buf = None.
Proof.
  intros H. unfold nfc_tlv_next.
  destruct (Z.to_nat (size buf)) as [|fuel] eqn:F; [reflexivity|].
  cbn [nfc_tlv_next_loop].
  destruct (size buf <? 1) eqn:E; [reflexivity|]. apply Z.ltb_ge in E.
  destruct H as [H|H]; [lia|]. rewrite H. reflexivity.
Qed.

Lemma tlv_blocks_fuel mem (fuel1 : nat) : forall fuel2 buf,
  (Z.to_nat (size buf) <= fuel1)%nat ->
  (Z.to_nat (size buf) <= fuel2)%nat ->
  tlv_blocks_loop fuel1 mem buf = tlv_blocks_loop fuel2 mem buf.
Proof.
  induction fuel1 as [|fuel1 IH]; intros fuel2 buf H1 H2.
  - destruct fuel2 as [|fuel2]; [reflexivity|].
    cbn [tlv_blocks_loop]. rewrite tlv_next_stops; [reflexivity|lia].
  - destruct fuel2 as [|fuel2]; cbn [tlv_blocks_loop].
    + rewrite tlv_next_stops; [reflexivity|lia].
    + destruct (nfc_tlv_next mem buf) as [[[t v] buf']|] eqn:N;
        [|reflexivity].
      apply tlv_next_shrinks in N. f_equal. apply IH; lia.
Qed.

(** The blocks of a stream, one [nfc_tlv_next] at a time. *)
Lemma tlv_blocks_eq mem buf :
  tlv_blocks mem buf =
  match nfc_tlv_next mem buf with
  | Some (t, v, buf') => (t, v) :: tlv_blocks mem buf'
  | None => []
  end.
Proof.
  unfold tlv_blocks.
  destruct (Z.to_nat (size buf)) as [|fuel] eqn:F.
  - cbn [tlv_blocks_loop]. rewrite tlv_next_stops; [reflexivity|lia].
  - cbn [tlv_blocks_loop].
    destruct (nfc_tlv_next mem buf) as [[[t v] buf']|] eqn:N; [|reflexivity].
    apply tlv_next_shrinks in N. f_equal. apply tlv_blocks_fuel; lia.
Qed.

(** The loop of [nfc_ndef_rec_new_tlv] appends, block after block, what
    each block contributes. *)
Lemma tlv_loop_value {ext : Externals} mem (fuel : nat) : forall buf chain,
  value (nfc_ndef_rec_new_tlv_loop fuel buf chain) mem =
  chain ++ flat_map (block_records mem) (tlv_blocks_loop fuel mem buf).
Proof.
  induction fuel as [|fuel IH]; intros buf chain.
  - cbn. now rewrite app_nil_r.
  - cbn [nfc_ndef_rec_new_tlv_loop tlv_blocks_loop]. rewrite value_bind.
    change (value (peek (fun mem0 => nfc_tlv_next mem0 buf)) mem)
      with (nfc_tlv_next mem buf).
    destruct (nfc_tlv_next mem buf) as [[[t v] buf']|];
      [|cbn; now rewrite app_nil_r].
    cbn [flat_map]. unfold block_records at 1. cbn [fst snd].
    destruct (t =? TLV_NDEF_MESSAGE).
    + rewrite value_bind.
      destruct (value (nfc_ndef_rec_new (Some v)) mem) as [|r0 rs].
      * apply IH.
      * rewrite IH. now rewrite app_assoc.
    + apply IH.
Qed.

(** C8: [nfc_ndef_rec_new_tlv] returns the concatenation, in stream order,
    of what the blocks of the TLV stream contribute: the chain
    [nfc_ndef_rec_new] builds from the value of a block of type 0x03, and
    nothing for a block of another type.  The blocks are those
    [nfc_tlv_next] yields one after the other, and there are none from the
    terminator or the end of the stream on. *)
Theorem tlv_chains_concatenated {ext : Externals}
    (mem : memory) (tlv : GUtilData) :
  value (nfc_ndef_rec_new_tlv (Some tlv)) mem =
  flat_map (block_records mem) (tlv_blocks mem tlv) /\
  tlv_blocks mem tlv =
  match nfc_tlv_next mem tlv with
  | Some (t, v, buf') => (t, v) :: tlv_blocks mem buf'
  | None => []
  end /\
  (forall t v,
     block_records mem (t, v) =
     if t =? 0x03 then value (nfc_ndef_rec_new (Some v)) mem else []) /\
  (size tlv <= 0 \/ u8 (mem (bytes tlv)) = 0xFE -> tlv_blocks mem tlv = []).
Proof.
  split; [|split; [|split]].
  - unfold nfc_ndef_rec_new_tlv, tlv_blocks. now rewrite tlv_loop_value.
  - apply tlv_blocks_eq.
  - reflexivity.
  - intros H. rewrite tlv_blocks_eq. now rewrite tlv_next_stops.
Qed.

Lemma tlv_chains_concatenated_witness :
  let mem := array_mem sample_tlv in
  value (@nfc_ndef_rec_new_tlv sample_ext (Some (whole sample_tlv))) mem =
  value (@nfc_ndef_rec_new sample_ext (Some (mkData 6 4))) mem ++
  value (@nfc_ndef_rec_new sample_ext (Some (mkData 12 0))) mem.
Proof.
  intros mem.
  exact (eq_trans
           (proj1 (@tlv_chains_concatenated sample_ext mem (whole sample_tlv)))
           eq_refl).
Defined.

(* ------------------------------------------------------------------ *)
(** ** The synthesizer *)

Lemma segment {A} (pre mid post : list A) :
  firstn (length mid) (skipn (length pre) (pre ++ mid ++ post)) = mid.
Proof.
  rewrite skipn_app, skipn_all, Nat.sub_diag. cbn [app skipn].
  rewrite firstn_app, firstn_all, Nat.sub_diag. cbn [firstn].
  apply app_nil_r.
Qed.

Lemma app_inv_length {A} (a : list A) : forall b c d,
  a ++ b = c ++ d -> length a = length c -> a = c /\ b = d.
Proof.
  induction a as [|x a IH]; intros b [|y c] d E L; try discriminate.
  - now split.
  - cbn in E, L. injection E as -> E. injection L as L.
    destruct (IH _ _ _ E L) as [-> ->]. now split.
Qed.

Lemma byte_list_eqb_true a b : byte_list_eqb a b = true -> a = b.
Proof. unfold byte_list_eqb. now destruct (list_eq_dec _ a b). Qed.

(** The header part is three or six bytes; its first byte is [D1] (short
    form) or [C1] (long form), its second the TYPE LENGTH byte. *)
Lemma well_known_header_cases ty pay :
  well_known_header ty pay =
    [to_u8 0xC1; to_u8 (size ty);
     to_u8 (Z.shiftr (size pay) 24); to_u8 (Z.shiftr (size pay) 16);
     to_u8 (Z.shiftr (size pay) 8); to_u8 (size pay)] /\ 0xff < size pay
  \/
  well_known_header ty pay =
    [to_u8 0xD1; to_u8 (size ty); to_u8 (size pay)] /\ size pay <= 0xff.
Proof.
  unfold well_known_header. destruct (0xff <? size pay) eqn:E.
  - apply Z.ltb_lt in E. now left.
  - apply Z.ltb_ge in E. now right.
Qed.

Section Synthesizer.
Context {ext : Externals}.

(** The synthesized record, field by field. *)
Lemma wk_record rtd0 ty pay mem :
  let hdrs := well_known_header ty pay in
  let T := memread mem (bytes ty) (u32 (size ty)) in
  let P := memread mem (bytes pay) (u32 (size pay)) in
  nfc_ndef_rec_new_well_known rtd0 ty pay mem =
  mkRec (if 1 <? NFC_NDEF_TNF_MAX then 1 else 0) rtd0 (mkFlags true true)
        (hdrs ++ T ++ P)
        (mkView (Some (Z.of_nat (length hdrs))) (u32 (size ty)))
        null_view
        (if u32 (size pay) =? 0 then null_view
         else mkView (Some (Z.of_nat (length hdrs) + u32 (size ty) + 0))
                     (u32 (size pay)))
        GenericRecord.
Proof.
  intros hdrs T P.
  unfold nfc_ndef_rec_new_well_known, g_byte_array_append.
  fold hdrs. fold T. fold P. rewrite <- app_assoc.
  unfold nfc_ndef_rec_initialize.
  cbn [rec bytes size type_offset type_length id_length payload_length
       g_object_new tnf flags flag_first flag_last id payload variant].
  rewrite memread_array.
  assert (Hb : u8 (array_mem (hdrs ++ T ++ P) 0) = 0xC1 \/
               u8 (array_mem (hdrs ++ T ++ P) 0) = 0xD1).
  { subst hdrs.
    destruct (well_known_header_cases ty pay) as [[-> _]|[-> _]];
      [left|right]; reflexivity. }
  assert (Ht : Z.land (u8 (array_mem (hdrs ++ T ++ P) 0))
                      NFC_NDEF_HDR_TNF_MASK = 1)
    by (destruct Hb as [-> | ->]; reflexivity).
  assert (Hm : bit_set (u8 (array_mem (hdrs ++ T ++ P) 0)) NFC_NDEF_HDR_MB
               = true)
    by (destruct Hb as [-> | ->]; reflexivity).
  assert (He : bit_set (u8 (array_mem (hdrs ++ T ++ P) 0)) NFC_NDEF_HDR_ME
               = true)
    by (destruct Hb as [-> | ->]; reflexivity).
  rewrite Ht, Hm, He.
  change (0 <? 0) with false. cbv iota.
  f_equal. destruct (u32 (size pay) =? 0); reflexivity.
Qed.

Lemma view_of_type_segment r hdrs T P n :
  raw r = hdrs ++ T ++ P ->
  type r = mkView (Some (Z.of_nat (length hdrs))) n ->
  Z.to_nat n = length T ->
  view_of r (type r) = T.
Proof.
  intros Hr Ht Hn. unfold view_of. rewrite Ht, Hr. cbn [ptr len].
  rewrite Nat2Z.id, Hn. apply segment.
Qed.

Lemma view_of_payload_segment r hdrs T P n k :
  raw r = hdrs ++ T ++ P ->
  payload r = (if n =? 0 then null_view
               else mkView (Some (Z.of_nat (length hdrs) + k + 0)) n) ->
  Z.to_nat k = length T -> 0 <= k ->
  Z.to_nat n = length P ->
  view_of r (payload r) = P.
Proof.
  intros Hr Hp Hk Hk0 Hn. unfold view_of. rewrite Hp, Hr.
  destruct (n =? 0) eqn:E.
  - apply Z.eqb_eq in E. subst n. cbn [ptr null_view].
    destruct P; [reflexivity|discriminate].
  - cbn [ptr len].
    replace (Z.to_nat (Z.of_nat (length hdrs) + k + 0))
      with (length (hdrs ++ T)) by (rewrite length_app; lia).
    rewrite Hn, app_assoc.
    rewrite <- (app_nil_r P) at 2. apply segment.
Qed.

End Synthesizer.




(* ------------------------------------------------------------------ *)
(** ** Parsing what the synthesizer wrote *)

Section RoundTrip.
Context {ext : Externals}.
Variables (mem mem' : memory) (ty pay block : GUtilData).
Hypothesis Hty : 0 <= size ty <= 255.
Hypothesis Hpay : 0 <= size pay < 2 ^ 31.
Hypothesis Hview :
  view_bytes mem' block =
  raw (nfc_ndef_rec_new_well_known NFC_NDEF_RTD_UNKNOWN ty pay mem).

Let hdrs := well_known_header ty pay.
Let hl := Z.of_nat (length hdrs).
Let nd := mkNdef (mkData (bytes block) (size block)) hl (size ty) 0 (size pay).

Lemma wk_raw rtd0 :
  raw (nfc_ndef_rec_new_well_known rtd0 ty pay mem)
  = hdrs ++ view_bytes mem ty ++ view_bytes mem pay.
Proof.
  pose proof (wk_record rtd0 ty pay mem) as E. cbv zeta in E.
  rewrite (u32_small (size ty)), (u32_small (size pay)) in E by lia.
  rewrite E. reflexivity.
Qed.

Lemma wk_view : view_bytes mem' block
                = hdrs ++ view_bytes mem ty ++ view_bytes mem pay.
Proof. rewrite Hview. apply wk_raw. Qed.

Lemma wk_hl : hl = 3 \/ hl = 6.
Proof.
  subst hl hdrs.
  destruct (well_known_header_cases ty pay) as [[-> _]|[-> _]];
    [right|left]; reflexivity.
Qed.

Lemma wk_size : size block = hl + size ty + size pay.
Proof.
  pose proof wk_view as V. pose proof wk_hl as H3.
  apply (f_equal (@length byte)) in V. unfold view_bytes in V.
  rewrite !length_app, !memread_length in V. fold hl in H3. subst hl. lia.
Qed.

Lemma wk_byte (i : nat) :
  (i < length hdrs)%nat -> mem' (bytes block + Z.of_nat i) = nth i hdrs x00.
Proof.
  intros Hi.
  rewrite (view_nth _ _ _ i wk_view) by (rewrite length_app; lia).
  now rewrite app_nth1.
Qed.

Lemma wk_hdr_byte :
  u8 (mem' (bytes block)) = 0xC1 \/ u8 (mem' (bytes block)) = 0xD1.
Proof.
  pose proof wk_hl as H3.
  rewrite <- (Z.add_0_r (bytes block)).
  change (bytes block + 0) with (bytes block + Z.of_nat 0).
  rewrite (wk_byte 0%nat) by (subst hl; lia). subst hdrs.
  destruct (well_known_header_cases ty pay) as [[-> _]|[-> _]];
    [left|right]; reflexivity.
Qed.

(** The parser finds one record that takes the whole block, with the
    lengths given to the synthesizer. *)
Lemma wk_parse :
  value (nfc_ndef_rec_parse block) mem'
  = Some (nd, mkData (bytes block + size block) 0).
Proof.
  pose proof wk_size as S. pose proof wk_byte as Hn.
  assert (Hst : size ty mod 256 = size ty) by (apply Z.mod_small; lia).
  subst nd hl hdrs.
  destruct (well_known_header_cases ty pay) as [[E Hl]|[E Hl]];
    rewrite E in *.
  - pose proof (Hn 0%nat ltac:(cbn; lia)) as B0.
    pose proof (Hn 1%nat ltac:(cbn; lia)) as B1.
    pose proof (Hn 2%nat ltac:(cbn; lia)) as B2.
    pose proof (Hn 3%nat ltac:(cbn; lia)) as B3.
    pose proof (Hn 4%nat ltac:(cbn; lia)) as B4.
    pose proof (Hn 5%nat ltac:(cbn; lia)) as B5.
    change (Z.of_nat 0) with 0 in B0. change (Z.of_nat 1) with 1 in B1.
    change (Z.of_nat 2) with 2 in B2.
    change (Z.of_nat 3) with (2 + 1) in B3.
    change (Z.of_nat 4) with (2 + 2) in B4.
    change (Z.of_nat 5) with (2 + 3) in B5.
    pose proof (parse_long_form mem' block) as F. cbv zeta in F.
    rewrite B0, B1, B2, B3, B4, B5 in F.
    cbn [nth] in F. rewrite !u8_to_u8 in F.
    rewrite be32_roundtrip in F by lia. rewrite Hst in F.
    replace (6 + size ty + size pay) with (size block) in F
      by (rewrite S; cbn; lia).
    replace (size block - size block) with 0 in F by lia.
    apply F; try reflexivity; lia.
  - pose proof (Hn 0%nat ltac:(cbn; lia)) as B0.
    pose proof (Hn 1%nat ltac:(cbn; lia)) as B1.
    pose proof (Hn 2%nat ltac:(cbn; lia)) as B2.
    change (Z.of_nat 0) with 0 in B0. change (Z.of_nat 1) with 1 in B1.
    change (Z.of_nat 2) with 2 in B2.
    pose proof (parse_short_form mem' block) as F. cbv zeta in F.
    rewrite B0, B1, B2 in F.
    cbn [nth] in F. rewrite !u8_to_u8 in F. rewrite Hst in F.
    rewrite (Z.mod_small (size pay)) in F by lia.
    replace (3 + size ty + size pay) with (size block) in F
      by (rewrite S; cbn; lia).
    replace (size block - size block) with 0 in F by lia.
    apply F; try reflexivity; lia.
Qed.

(** Initializing from the parsed descriptor gives the synthesized record,
    up to the RTD that is passed. *)
Lemma wk_initialize rtd1 :
  nfc_ndef_rec_initialize g_object_new rtd1 nd mem'
  = nfc_ndef_rec_new_well_known rtd1 ty pay mem.
Proof.
  pose proof (wk_record rtd1 ty pay mem) as E. cbv zeta in E.
  rewrite (u32_small (size ty)), (u32_small (size pay)) in E by lia.
  rewrite E. clear E.
  unfold nfc_ndef_rec_initialize.
  cbn [nd rec bytes size type_offset type_length id_length payload_length
       g_object_new tnf flags flag_first flag_last id payload variant].
  fold (view_bytes mem' block). rewrite wk_view.
  assert (Ht : Z.land (u8 (mem' (bytes block))) NFC_NDEF_HDR_TNF_MASK = 1)
    by (destruct wk_hdr_byte as [-> | ->]; reflexivity).
  assert (Hm : bit_set (u8 (mem' (bytes block))) NFC_NDEF_HDR_MB = true)
    by (destruct wk_hdr_byte as [-> | ->]; reflexivity).
  assert (He : bit_set (u8 (mem' (bytes block))) NFC_NDEF_HDR_ME = true)
    by (destruct wk_hdr_byte as [-> | ->]; reflexivity).
  rewrite Ht, Hm, He.
  change (0 <? 0) with false. cbv iota.
  unfold view_bytes. fold hdrs. fold hl.
  f_equal. destruct (size pay =? 0); reflexivity.
Qed.

(** The type the factory looks at is the type given to the synthesizer. *)
Lemma wk_type_view :
  view_bytes mem' (nfc_ndef_type nd) = view_bytes mem ty.
Proof.
  unfold nfc_ndef_type. cbn [nd type_length type_offset rec bytes].
  destruct (size ty =? 0) eqn:E; cbn [negb].
  - apply Z.eqb_eq in E. unfold view_bytes. cbn [size bytes].
    rewrite E. reflexivity.
  - pose proof wk_view as V. pose proof wk_hl as H3.
    unfold view_bytes in V at 1.
    rewrite wk_size in V.
    replace (hl + size ty + size pay) with (hl + (size ty + size pay)) in V
      by lia.
    rewrite memread_app in V by lia.
    apply app_inv_length in V;
      [|rewrite memread_length; subst hl; lia].
    destruct V as [_ V].
    rewrite memread_app in V by lia.
    apply app_inv_length in V;
      [|unfold view_bytes; now rewrite !memread_length].
    destruct V as [V _]. exact V.
Qed.

(** The chain is the one record the factory makes of that descriptor. *)
Lemma wk_chain :
  value (nfc_ndef_rec_new (Some block)) mem' = [nfc_ndef_rec_alloc nd mem'].
Proof.
  pose proof wk_size as S. pose proof wk_hl as H3.
  rewrite rec_new_value.
  destruct (size block =? 0) eqn:Z0; [apply Z.eqb_eq in Z0; lia|].
  rewrite records_from_eq.
  destruct (0 <? size block) eqn:Z1; [|apply Z.ltb_ge in Z1; lia].
  rewrite wk_parse.
  assert (C : chunked mem' nd = false).
  { unfold chunked. cbn [nd rec bytes].
    destruct wk_hdr_byte as [-> | ->]; reflexivity. }
  rewrite C, records_from_eq. cbn [size]. reflexivity.
Qed.

(** What the factory makes of it: the generic record unless the type is
    "U" or "T" and the variant decoder accepts the payload. *)
Lemma wk_alloc :
  let r := nfc_ndef_rec_alloc nd mem' in
  let generic := nfc_ndef_rec_new_well_known NFC_NDEF_RTD_UNKNOWN ty pay mem in
  r = generic \/
  (view_bytes mem ty = nfc_ndef_rec_type_u /\
   exists uri, r = set_variant
                     (nfc_ndef_rec_new_well_known NFC_NDEF_RTD_URI ty pay mem)
                     (UriRecord uri)) \/
  (view_bytes mem ty = nfc_ndef_rec_type_t /\
   exists lang text utf16,
     r = set_variant
           (nfc_ndef_rec_new_well_known NFC_NDEF_RTD_TEXT ty pay mem)
           (TextRecord lang text utf16)).
Proof.
  intros r generic. subst r generic.
  pose proof wk_size as S. pose proof wk_hl as H3.
  unfold nfc_ndef_rec_alloc.
  replace (size (rec nd) =? 0) with false
    by (symmetry; apply Z.eqb_neq; cbn [nd rec size]; lia).
  cbn [negb]. unfold generic_rec.
  unfold gutil_data_equal. rewrite wk_type_view.
  destruct (_ && byte_list_eqb (view_bytes mem ty) nfc_ndef_rec_type_u)
    eqn:EU.
  - apply andb_prop in EU. destruct EU as [_ EU].
    apply byte_list_eqb_true in EU.
    unfold nfc_ndef_rec_u_new_from_data.
    destruct (uri_decode mem' nd) as [uri|].
    + right. left. split; [exact EU|]. exists uri.
      now rewrite wk_initialize.
    + left. apply wk_initialize.
  - destruct (_ && byte_list_eqb (view_bytes mem ty) nfc_ndef_rec_type_t)
      eqn:ET.
    + apply andb_prop in ET. destruct ET as [_ ET].
      apply byte_list_eqb_true in ET.
      unfold nfc_ndef_rec_t_new_from_data.
      destruct (text_decode mem' nd) as [[[lang text] utf16]|].
      * right. right. split; [exact ET|]. exists lang, text, utf16.
        now rewrite wk_initialize.
      * left. apply wk_initialize.
    + left. apply wk_initialize.
Qed.

Lemma wk_type_size : size (nfc_ndef_type nd) = size ty.
Proof.
  unfold nfc_ndef_type. cbn [nd type_length].
  destruct (size ty =? 0) eqn:E; cbn [negb size]; [|reflexivity].
  apply Z.eqb_eq in E. now rewrite E.
Qed.

Lemma wk_type_test (c : list byte) :
  gutil_data_equal mem' (nfc_ndef_type nd) c
  = byte_list_eqb (view_bytes mem ty) c.
Proof.
  unfold gutil_data_equal. rewrite wk_type_view, wk_type_size.
  unfold byte_list_eqb.
  destruct (list_eq_dec Byte.byte_eq_dec (view_bytes mem ty) c) as [<-|_];
    [|apply andb_false_r].
  unfold view_bytes. rewrite memread_length.
  rewrite Z2Nat.id by lia. now rewrite Z.eqb_refl.
Qed.

(** For the type "U" the factory asks the URI decoder, for "T" the Text
    decoder, each on the parsed descriptor; the record is the variant one
    when the decoder accepts and the generic one when it does not. *)
Lemma wk_alloc_u :
  view_bytes mem ty = nfc_ndef_rec_type_u ->
  nfc_ndef_rec_alloc nd mem' =
  match uri_decode mem' nd with
  | Some uri =>
      set_variant (nfc_ndef_rec_new_well_known NFC_NDEF_RTD_URI ty pay mem)
                  (UriRecord uri)
  | None => nfc_ndef_rec_new_well_known NFC_NDEF_RTD_UNKNOWN ty pay mem
  end.
Proof.
  intros HU. pose proof wk_size as S. pose proof wk_hl as H3.
  unfold nfc_ndef_rec_alloc.
  replace (size (rec nd) =? 0) with false
    by (symmetry; apply Z.eqb_neq; cbn [nd rec size]; lia).
  cbn [negb]. rewrite wk_type_test, HU.
  change (byte_list_eqb nfc_ndef_rec_type_u nfc_ndef_rec_type_u) with true.
  cbv iota. unfold nfc_ndef_rec_u_new_from_data, generic_rec.
  destruct (uri_decode mem' nd) as [uri|]; now rewrite wk_initialize.
Qed.

Lemma wk_alloc_t :
  view_bytes mem ty = nfc_ndef_rec_type_t ->
  nfc_ndef_rec_alloc nd mem' =
  match text_decode mem' nd with
  | Some (lang, text, utf16) =>
      set_variant (nfc_ndef_rec_new_well_known NFC_NDEF_RTD_TEXT ty pay mem)
                  (TextRecord lang text utf16)
  | None => nfc_ndef_rec_new_well_known NFC_NDEF_RTD_UNKNOWN ty pay mem
  end.
Proof.
  intros HT. pose proof wk_size as S. pose proof wk_hl as H3.
  unfold nfc_ndef_rec_alloc.
  replace (size (rec nd) =? 0) with false
    by (symmetry; apply Z.eqb_neq; cbn [nd rec size]; lia).
  cbn [negb]. rewrite !wk_type_test, HT.
  change (byte_list_eqb nfc_ndef_rec_type_t nfc_ndef_rec_type_u) with false.
  change (byte_list_eqb nfc_ndef_rec_type_t nfc_ndef_rec_type_t) with true.
  cbv iota. unfold nfc_ndef_rec_t_new_from_data, generic_rec.
  destruct (text_decode mem' nd) as [[[lang text] utf16]|];
    now rewrite wk_initialize.
Qed.

End RoundTrip.

Section Observables.
Context {ext : Externals}.

(** The fields of a synthesized record that are read off the wire bytes,
    whatever RTD and variant it carries. *)
Lemma wk_observables mem ty pay rtd0 rtd1 v :
  1 < NFC_NDEF_TNF_MAX ->
  0 <= size ty <= 255 -> 0 <= size pay < 2 ^ 31 ->
  let r := set_variant (nfc_ndef_rec_new_well_known rtd1 ty pay mem) v in
  same_wire r (nfc_ndef_rec_new_well_known rtd0 ty pay mem) /\
  tnf r = NFC_NDEF_TNF_WELL_KNOWN /\
  flags r = mkFlags true true /\
  view_of r (type r) = view_bytes mem ty /\
  id r = null_view /\
  view_of r (payload r) = view_bytes mem pay /\
  rtd r = rtd1.
Proof.
  intros Hmax Hty Hpay r.
  pose proof (wk_record rtd1 ty pay mem) as E1.
  pose proof (wk_record rtd0 ty pay mem) as E0.
  cbv zeta in E0, E1.
  rewrite (u32_small (size ty)), (u32_small (size pay)) in E0, E1 by lia.
  assert (M : (1 <? NFC_NDEF_TNF_MAX) = true) by (apply Z.ltb_lt; exact Hmax).
  rewrite M in E0, E1.
  split; [subst r; rewrite E0, E1; repeat split|].
  split; [subst r; rewrite E1; reflexivity|].
  split; [subst r; rewrite E1; reflexivity|].
  split.
  { apply view_of_type_segment
      with (hdrs := well_known_header ty pay)
           (P := memread mem (bytes pay) (size pay)) (n := size ty);
      try (subst r; rewrite E1; reflexivity).
    unfold view_bytes. now rewrite memread_length. }
  split; [subst r; rewrite E1; reflexivity|].
  split; [|subst r; rewrite E1; reflexivity].
  apply view_of_payload_segment
    with (hdrs := well_known_header ty pay)
         (T := memread mem (bytes ty) (size ty))
         (n := size pay) (k := size ty);
    try (subst r; rewrite E1; reflexivity); try lia;
    unfold view_bytes; now rewrite memread_length.
Qed.

End Observables.

(** C3, as the code has it: parsing the wire bytes of
    [build_well_known(rtd, type, payload)] (type of at most 255 bytes,
    payload below 2^31, WellKnown within the TNF bound) yields a single
    record, made from the one descriptor the parser finds in them, that
    equals the built one on everything read off the wire: TNF WellKnown,
    flags {First, Last}, the wire bytes, the type bytes, no ID, the payload
    bytes.  Its RTD is not the one given to the synthesizer but the one the
    factory assigns.  For the type "U" it is URI when the URI decoder
    accepts the parsed descriptor, and the record is then the built one
    with RTD URI and the decoded string; it is Unknown when the decoder
    does not accept.  For the type "T" it is Text or Unknown in the same
    way, by the Text decoder.  For any other type it is Unknown.  Whenever
    it is Unknown the record is the built one with RTD Unknown. *)
Theorem well_known_roundtrip {ext : Externals}
    (mem mem' : memory) (rtd0 : NFC_NDEF_RTD) (ty pay block : GUtilData) :
  1 < NFC_NDEF_TNF_MAX ->
  0 <= size ty <= 255 ->
  0 <= size pay < 2 ^ 31 ->
  let built := nfc_ndef_rec_new_well_known rtd0 ty pay mem in
  let generic := nfc_ndef_rec_new_well_known NFC_NDEF_RTD_UNKNOWN ty pay mem in
  view_bytes mem' block = raw built ->
  exists r nd,
    value (nfc_ndef_rec_parse block) mem'
    = Some (nd, mkData (bytes block + size block) 0) /\
    value (nfc_ndef_rec_new (Some block)) mem' = [r] /\
    r = nfc_ndef_rec_alloc nd mem' /\
    same_wire r built /\
    tnf r = NFC_NDEF_TNF_WELL_KNOWN /\
    flags r = mkFlags true true /\
    view_of r (type r) = view_bytes mem ty /\
    id r = null_view /\
    view_of r (payload r) = view_bytes mem pay /\
    (rtd r = NFC_NDEF_RTD_UNKNOWN \/
     (view_bytes mem ty = nfc_ndef_rec_type_u /\ rtd r = NFC_NDEF_RTD_URI) \/
     (view_bytes mem ty = nfc_ndef_rec_type_t /\ rtd r = NFC_NDEF_RTD_TEXT))
    /\
    (view_bytes mem ty <> nfc_ndef_rec_type_u ->
     view_bytes mem ty <> nfc_ndef_rec_type_t ->
     r = generic /\ rtd r = NFC_NDEF_RTD_UNKNOWN) /\
    (view_bytes mem ty = nfc_ndef_rec_type_u ->
     match uri_decode mem' nd with
     | Some uri =>
         rtd r = NFC_NDEF_RTD_URI /\
         r = set_variant
               (nfc_ndef_rec_new_well_known NFC_NDEF_RTD_URI ty pay mem)
               (UriRecord uri)
     | None => rtd r = NFC_NDEF_RTD_UNKNOWN /\ r = generic
     end) /\
    (view_bytes mem ty = nfc_ndef_rec_type_t ->
     match text_decode mem' nd with
     | Some (lang, text, utf16) =>
         rtd r = NFC_NDEF_RTD_TEXT /\
         r = set_variant
               (nfc_ndef_rec_new_well_known NFC_NDEF_RTD_TEXT ty pay mem)
               (TextRecord lang text utf16)
     | None => rtd r = NFC_NDEF_RTD_UNKNOWN /\ r = generic
     end).
Proof.
  intros Hmax Hty Hpay built generic Hview.
  assert (Hview' : view_bytes mem' block =
            raw (nfc_ndef_rec_new_well_known NFC_NDEF_RTD_UNKNOWN ty pay mem)).
  { rewrite Hview. subst built.
    rewrite !(wk_raw mem ty pay Hty Hpay). reflexivity. }
  pose (nd := mkNdef (mkData (bytes block) (size block))
                     (Z.of_nat (length (well_known_header ty pay)))
                     (size ty) 0 (size pay)).
  exists (nfc_ndef_rec_alloc nd mem'), nd.
  split; [apply (wk_parse mem mem' ty pay block Hty Hpay Hview')|].
  split; [apply (wk_chain mem mem' ty pay block Hty Hpay Hview')|].
  split; [reflexivity|].
  pose proof (wk_alloc mem mem' ty pay block Hty Hpay Hview') as A.
  pose proof (wk_alloc_u mem mem' ty pay block Hty Hpay Hview') as AU.
  pose proof (wk_alloc_t mem mem' ty pay block Hty Hpay Hview') as AT.
  cbv zeta in A, AU, AT. fold nd in A, AU, AT. fold generic in A, AU, AT.
  pose proof (fun rtd1 v =>
                wk_observables mem ty pay rtd0 rtd1 v Hmax Hty Hpay) as O.
  cbv zeta in O. fold built in O.
  assert (G : set_variant generic GenericRecord = generic)
    by (subst generic;
        rewrite (wk_record NFC_NDEF_RTD_UNKNOWN ty pay mem); reflexivity).
  assert (RG : rtd generic = NFC_NDEF_RTD_UNKNOWN)
    by (subst generic;
        rewrite (wk_record NFC_NDEF_RTD_UNKNOWN ty pay mem); reflexivity).
  assert (Tail :
    (view_bytes mem ty = nfc_ndef_rec_type_u ->
     match uri_decode mem' nd with
     | Some uri =>
         rtd (nfc_ndef_rec_alloc nd mem') = NFC_NDEF_RTD_URI /\
         nfc_ndef_rec_alloc nd mem'
         = set_variant
             (nfc_ndef_rec_new_well_known NFC_NDEF_RTD_URI ty pay mem)
             (UriRecord uri)
     | None => rtd (nfc_ndef_rec_alloc nd mem') = NFC_NDEF_RTD_UNKNOWN /\
               nfc_ndef_rec_alloc nd mem' = generic
     end) /\
    (view_bytes mem ty = nfc_ndef_rec_type_t ->
     match text_decode mem' nd with
     | Some (lang, text, utf16) =>
         rtd (nfc_ndef_rec_alloc nd mem') = NFC_NDEF_RTD_TEXT /\
         nfc_ndef_rec_alloc nd mem'
         = set_variant
             (nfc_ndef_rec_new_well_known NFC_NDEF_RTD_TEXT ty pay mem)
             (TextRecord lang text utf16)
     | None => rtd (nfc_ndef_rec_alloc nd mem') = NFC_NDEF_RTD_UNKNOWN /\
               nfc_ndef_rec_alloc nd mem' = generic
     end)).
  { split.
    - intros HU. rewrite (AU HU).
      destruct (uri_decode mem' nd) as [uri|].
      + split; [|reflexivity].
        apply (O NFC_NDEF_RTD_URI (UriRecord uri)).
      + split; [exact RG|reflexivity].
    - intros HT. rewrite (AT HT).
      destruct (text_decode mem' nd) as [[[lang text] utf16]|].
      + split; [|reflexivity].
        apply (O NFC_NDEF_RTD_TEXT (TextRecord lang text utf16)).
      + split; [exact RG|reflexivity]. }
  clear AU AT.
  destruct A as [E | [(HU & uri & E) | (HT & lang & text & utf16 & E)]];
    revert Tail; rewrite E; intros Tail.
  - destruct (O NFC_NDEF_RTD_UNKNOWN GenericRecord)
      as (O1 & O2 & O3 & O4 & O5 & O6 & O7).
    fold generic in O1, O2, O3, O4, O5, O6, O7. rewrite G in *.
    repeat (split; [assumption|]). split; [now left|].
    split; [intros _ _; split; [reflexivity|exact RG]|exact Tail].
  - destruct (O NFC_NDEF_RTD_URI (UriRecord uri))
      as (O1 & O2 & O3 & O4 & O5 & O6 & O7).
    repeat (split; [assumption|]). split; [right; left; now split|].
    split; [intros N _; contradiction|exact Tail].
  - destruct (O NFC_NDEF_RTD_TEXT (TextRecord lang text utf16))
      as (O1 & O2 & O3 & O4 & O5 & O6 & O7).
    repeat (split; [assumption|]). split; [right; right; now split|].
    split; [intros _ N; contradiction|exact Tail].
Qed.

Lemma well_known_roundtrip_witness :
  let mem := array_mem sample_two in
  let ux := mkData 3 1 in
  let x := mkData 9 1 in
  let pay := mkData 4 2 in
  let none := mkData 0 0 in
  let built := @nfc_ndef_rec_new_well_known sample_ext NFC_NDEF_RTD_UNKNOWN
                 x pay mem in
  let built_u := @nfc_ndef_rec_new_well_known sample_ext NFC_NDEF_RTD_TEXT
                   ux pay mem in
  let built_e := @nfc_ndef_rec_new_well_known sample_ext NFC_NDEF_RTD_URI
                   ux none mem in
  (exists r,
     value (@nfc_ndef_rec_new sample_ext (Some (whole (raw built))))
           (array_mem (raw built)) = [r] /\
     same_wire r built /\ r = built) /\
  (exists r,
     value (@nfc_ndef_rec_new sample_ext (Some (whole (raw built_u))))
           (array_mem (raw built_u)) = [r] /\
     same_wire r built_u /\ rtd r = NFC_NDEF_RTD_URI /\
     variant r = UriRecord String.EmptyString) /\
  (exists r,
     value (@nfc_ndef_rec_new sample_ext (Some (whole (raw built_e))))
           (array_mem (raw built_e)) = [r] /\
     same_wire r built_e /\ rtd r = NFC_NDEF_RTD_UNKNOWN).
Proof.
  intros mem ux x pay none built built_u built_e.
  split; [|split].
  - destruct (@well_known_roundtrip sample_ext mem (array_mem (raw built))
                NFC_NDEF_RTD_UNKNOWN x pay (whole (raw built))
                ltac:(cbn; lia) ltac:(cbn; lia) ltac:(cbn; lia) eq_refl)
      as (r & nd & _ & H1 & _ & H2 & _ & _ & _ & _ & _ & _ & H3 & _).
    exists r. split; [exact H1|]. split; [exact H2|].
    apply H3; discriminate.
  - destruct (@well_known_roundtrip sample_ext mem (array_mem (raw built_u))
                NFC_NDEF_RTD_TEXT ux pay (whole (raw built_u))
                ltac:(cbn; lia) ltac:(cbn; lia) ltac:(cbn; lia) eq_refl)
      as (r & nd & P & H1 & _ & H2 & _ & _ & _ & _ & _ & _ & _ & H3 & _).
    apply Some_pair_inj in P. destruct P as [<- _].
    destruct (H3 eq_refl) as [H4 H5].
    exists r. split; [exact H1|]. split; [exact H2|]. split; [exact H4|].
    rewrite H5. reflexivity.
  - destruct (@well_known_roundtrip sample_ext mem (array_mem (raw built_e))
                NFC_NDEF_RTD_URI ux none (whole (raw built_e))
                ltac:(cbn; lia) ltac:(cbn; lia) ltac:(cbn; lia) eq_refl)
      as (r & nd & P & H1 & _ & H2 & _ & _ & _ & _ & _ & _ & _ & H3 & _).
    apply Some_pair_inj in P. destruct P as [<- _].
    destruct (H3 eq_refl) as [H4 _].
    exists r. split; [exact H1|]. split; [exact H2|]. exact H4.
Defined.

(** C3 as stated fails on [rtd]: for the record built with RTD URI, type
    "x" and no payload, the wire bytes are [D1 01 00 78]; parsing them gives
    one record whose RTD is Unknown, not URI, whatever the externals are. *)
Lemma roundtrip_rtd_counterexample :
  (exists r,
     value (@nfc_ndef_rec_new sample_ext (Some (whole sample_x)))
           (array_mem sample_x) = [r] /\
     raw (@nfc_ndef_rec_new_well_known sample_ext NFC_NDEF_RTD_URI
            (mkData 3 1) (mkData 0 0) (array_mem sample_x)) = sample_x /\
     rtd (@nfc_ndef_rec_new_well_known sample_ext NFC_NDEF_RTD_URI
            (mkData 3 1) (mkData 0 0) (array_mem sample_x))
     = NFC_NDEF_RTD_URI /\
     rtd r = NFC_NDEF_RTD_UNKNOWN) /\
  ~ (exists (ext : Externals) (r : NfcNdefRec),
       value (@nfc_ndef_rec_new ext
                (Some (whole (raw (@nfc_ndef_rec_new_well_known ext
                   NFC_NDEF_RTD_URI (mkData 3 1) (mkData 0 0)
                   (array_mem sample_x))))))
             (array_mem (raw (@nfc_ndef_rec_new_well_known ext
                   NFC_NDEF_RTD_URI (mkData 3 1) (mkData 0 0)
                   (array_mem sample_x)))) = [r] /\
       rtd r = rtd (@nfc_ndef_rec_new_well_known ext NFC_NDEF_RTD_URI
                      (mkData 3 1) (mkData 0 0) (array_mem sample_x))).
Proof.
  split.
  - eexists. repeat split; reflexivity.
  - intros (ext & r & Hv & Hr).
    assert (Hty : 0 <= size (mkData 3 1) <= 255) by (cbn; lia).
    assert (Hpay : 0 <= size (mkData 0 0) < 2 ^ 31) by (cbn; lia).
    pose proof (wk_raw (array_mem sample_x) _ _ Hty Hpay) as R.
    assert (Hview :
      view_bytes
        (array_mem (raw (@nfc_ndef_rec_new_well_known ext NFC_NDEF_RTD_URI
                           (mkData 3 1) (mkData 0 0) (array_mem sample_x))))
        (whole (raw (@nfc_ndef_rec_new_well_known ext NFC_NDEF_RTD_URI
                           (mkData 3 1) (mkData 0 0) (array_mem sample_x))))
      = raw (@nfc_ndef_rec_new_well_known ext NFC_NDEF_RTD_UNKNOWN
               (mkData 3 1) (mkData 0 0) (array_mem sample_x))).
    { unfold view_bytes, whole. cbn [bytes size].
      rewrite memread_array. rewrite !R. reflexivity. }
    rewrite (wk_chain _ _ _ _ _ Hty Hpay Hview) in Hv.
    apply (f_equal (hd g_object_new)) in Hv. cbn [hd] in Hv.
    pose proof (wk_alloc _ _ _ _ _ Hty Hpay Hview) as A. cbv zeta in A.
    destruct A as [A | [(HU & _) | (HT & _)]];
      [|discriminate HU|discriminate HT].
    rewrite A in Hv. subst r.
    rewrite !(wk_record _ (mkData 3 1) (mkData 0 0) (array_mem sample_x))
      in Hr.
    discriminate Hr.
Qed.

(* ================================================================== *)
(** * Further properties *)

(** ** The parser against the wire layout *)

Lemma be32_value b0 b1 b2 b3 :
  0 <= b0 < 256 -> 0 <= b1 < 256 -> 0 <= b2 < 256 -> 0 <= b3 < 256 ->
  Z.lor (Z.lor (Z.lor (u32 (Z.shiftl b0 24)) (u32 (Z.shiftl b1 16)))
               (u32 (Z.shiftl b2 8))) b3
  = b0 * 2 ^ 24 + b1 * 2 ^ 16 + b2 * 2 ^ 8 + b3.
Proof.
  intros H0 H1 H2 H3.
  set (x := b0 * 2 ^ 24 + b1 * 2 ^ 16 + b2 * 2 ^ 8 + b3).
  assert (Hx : 0 <= x < 2 ^ 32) by (subst x; lia).
  assert (E0 : Z.shiftr x 24 mod 256 = b0).
  { rewrite Z.shiftr_div_pow2 by lia.
    replace (x / 2 ^ 24) with b0
      by (apply Z.div_unique with (r := b1 * 2 ^ 16 + b2 * 2 ^ 8 + b3);
          subst x; lia).
    apply Z.mod_small; lia. }
  assert (E1 : Z.shiftr x 16 mod 256 = b1).
  { rewrite Z.shiftr_div_pow2 by lia.
    replace (x / 2 ^ 16) with (b0 * 256 + b1)
      by (apply Z.div_unique with (r := b2 * 2 ^ 8 + b3); subst x; lia).
    symmetry. apply Z.mod_unique with (q := b0); lia. }
  assert (E2 : Z.shiftr x 8 mod 256 = b2).
  { rewrite Z.shiftr_div_pow2 by lia.
    replace (x / 2 ^ 8) with (b0 * 65536 + b1 * 256 + b2)
      by (apply Z.div_unique with (r := b3); subst x; lia).
    symmetry. apply Z.mod_unique with (q := b0 * 256 + b1); lia. }
  assert (E3 : x mod 256 = b3).
  { symmetry.
    apply Z.mod_unique with (q := b0 * 65536 + b1 * 256 + b2);
      subst x; lia. }
  pose proof (be32_roundtrip x Hx) as R.
  rewrite E0, E1, E2, E3 in R. exact R.
Qed.

(** The parser against the layout. *)
Lemma parse_is_wire_record mem block :
  value (nfc_ndef_rec_parse block) mem = wire_record mem block.
Proof.
  unfold wire_record, wire_total, wire_id_length, wire_type_offset,
    wire_payload_length, wire_type_length, wire_il, wire_sr, wire_hdr.
  parse_cases mem block.
  { apply Z.ltb_lt in Hsz.
    replace (3 <=? size block) with false by (symmetry; apply Z.leb_gt; lia).
    reflexivity. }
  replace (3 <=? size block) with true by (symmetry; apply Z.leb_le; lia).
  rewrite Z.add_0_r in *.
  pose proof (u8_range (mem (bytes block + 3))) as Hc3.
  pose proof (u8_range (mem (bytes block + 4))) as Hc4.
  pose proof (u8_range (mem (bytes block + 5))) as Hc5.
  pose proof (u8_range (mem (bytes block + 6))) as Hc6.
  change (2 + 1) with 3 in *. change (2 + 2) with 4 in *.
  change (2 + 3) with 5 in *. change (2 + 4) with 6 in *.
  destruct (bit_set _ NFC_NDEF_HDR_SR); destruct (bit_set _ NFC_NDEF_HDR_IL);
    cbn [fst snd andb];
    rewrite ?be32_value by assumption.
  all: match goal with
       | |- context [?p <? 0x80000000] =>
           change (2 ^ 31) with 0x80000000;
           destruct (p <? 0x80000000) eqn:Hpl; cbn [andb]; [|reflexivity];
           apply Z.ltb_lt in Hpl
       end.
  all: u32_simpl.
  all: change (2 + 1 + 1 - 1) with 3; change (2 + 4 + 1 - 1) with 6.
  all: match goal with
       | |- context [(if ?a <=? size ?blk then (fun _ : memory => _) else _)] =>
           match goal with
           | |- _ = (if ?b <=? _ then _ else _) =>
               replace b with a by lia; destruct (a <=? size blk)
           end
       end.
  all: reflexivity.
Qed.

Lemma wire_ranges mem block :
  3 <= wire_type_offset mem block <= 7 /\
  0 <= wire_type_length mem block < 256 /\
  0 <= wire_id_length mem block < 256 /\
  0 <= wire_payload_length mem block < 2 ^ 32.
Proof.
  unfold wire_id_length, wire_type_offset, wire_type_length,
    wire_payload_length.
  pose proof (u8_range (mem (bytes block + 1))).
  pose proof (u8_range (mem (bytes block + 2))).
  pose proof (u8_range (mem (bytes block + 3))).
  pose proof (u8_range (mem (bytes block + 4))).
  pose proof (u8_range (mem (bytes block + 5))).
  pose proof (u8_range (mem (bytes block
                  + (2 + (if wire_sr mem block then 1 else 4)
                     + (if wire_il mem block then 1 else 0) - 1)))).
  destruct (wire_sr mem block), (wire_il mem block); lia.
Qed.

(** X1: [nfc_ndef_rec_parse] computes exactly the record the wire layout
    describes: it accepts a block if and only if the block has at least
    three bytes, the payload length (read big-endian in long form) is below
    2^31 and header, lengths, type, ID and payload together fit in the
    block; the 32-bit wrap-around of [total_len] never changes the
    outcome. *)
Theorem parse_matches_wire_layout (mem : memory) (block : GUtilData) :
  value (nfc_ndef_rec_parse block) mem = wire_record mem block /\
  (value (nfc_ndef_rec_parse block) mem <> None <->
   3 <= size block /\ wire_payload_length mem block < 2 ^ 31 /\
   wire_total mem block <= size block).
Proof.
  split; [apply parse_is_wire_record|].
  rewrite parse_is_wire_record. unfold wire_record.
  destruct (3 <=? size block) eqn:A;
    destruct (wire_payload_length mem block <? 2 ^ 31) eqn:B;
    destruct (wire_total mem block <=? size block) eqn:C; cbn [andb];
    rewrite ?Z.leb_le, ?Z.leb_gt, ?Z.ltb_lt, ?Z.ltb_ge in *;
    (split; [intros H; try (now contradiction H); repeat split; assumption
            | intros (H1 & H2 & H3); try discriminate; lia]).
Qed.

(** X2: when [nfc_ndef_rec_parse] succeeds, the record size is the exact
    sum of the header part and the three lengths, the header part is
    2 + (1 or 4) + (0 or 1) bytes, the record has at least three bytes and
    fits in the block, the block left starts right after the record, and
    every byte that was read lies inside the block. *)
Theorem parse_success_in_bounds (mem : memory) (block : GUtilData)
    (ndef : NfcNdefData) (rest : GUtilData) :
  value (nfc_ndef_rec_parse block) mem = Some (ndef, rest) ->
  bytes (rec ndef) = bytes block /\
  size (rec ndef) = type_offset ndef + type_length ndef + id_length ndef
                    + payload_length ndef /\
  type_offset ndef = 2 + (if wire_sr mem block then 1 else 4)
                       + (if wire_il mem block then 1 else 0) /\
  0 <= type_length ndef < 256 /\ 0 <= id_length ndef < 256 /\
  0 <= payload_length ndef < 2 ^ 31 /\
  3 <= size (rec ndef) <= size block /\
  bytes rest = bytes block + size (rec ndef) /\
  size rest = size block - size (rec ndef) /\
  Forall (in_view block) (reads (nfc_ndef_rec_parse block) mem).
Proof.
  intros P.
  pose proof (parse_success _ _ _ _ P) as [[] R].
  rewrite parse_is_wire_record in P. unfold wire_record in P.
  destruct (_ && _); [|discriminate].
  apply Some_pair_inj in P. destruct P as [<- <-].
  cbn [rec bytes size type_offset type_length id_length payload_length] in *.
  repeat split; try assumption; try reflexivity; try lia.
Qed.

Lemma parse_success_in_bounds_witness :
  let nd := mkNdef (mkData 0 11) 7 1 1 2 in
  size (rec nd) = type_offset nd + type_length nd + id_length nd
                  + payload_length nd /\
  Forall (in_view (whole sample_long_id))
         (reads (nfc_ndef_rec_parse (whole sample_long_id))
                (array_mem sample_long_id)).
Proof.
  intros nd.
  pose proof (parse_success_in_bounds (array_mem sample_long_id)
                (whole sample_long_id) nd (mkData 11 0) eq_refl)
    as (_ & H & _ & _ & _ & _ & _ & _ & _ & R).
  exact (conj H R).
Defined.

(** X3: a long-form record whose first PAYLOAD LENGTH byte has its top bit
    set (a declared payload of 2^31 bytes or more) is rejected, whatever
    the size of the block. *)
Theorem parse_rejects_top_bit_length (mem : memory) (block : GUtilData) :
  wire_sr mem block = false ->
  0x80 <= u8 (mem (bytes block + 2)) ->
  value (nfc_ndef_rec_parse block) mem = None.
Proof.
  intros HSR Hb. rewrite parse_is_wire_record. unfold wire_record.
  assert (Hpl : 2 ^ 31 <= wire_payload_length mem block).
  { unfold wire_payload_length. rewrite HSR.
    pose proof (u8_range (mem (bytes block + 3))).
    pose proof (u8_range (mem (bytes block + 4))).
    pose proof (u8_range (mem (bytes block + 5))). lia. }
  apply Z.ltb_ge in Hpl. rewrite Hpl. now rewrite andb_false_r.
Qed.

Lemma parse_rejects_top_bit_length_witness :
  value (nfc_ndef_rec_parse (whole sample_huge)) (array_mem sample_huge)
  = None.
Proof.
  apply parse_rejects_top_bit_length;
    [reflexivity|apply Z.leb_le; reflexivity].
Defined.

Lemma wire_transport mem1 b1 mem2 b2 :
  (forall i, 0 <= i < wire_type_offset mem1 b1 ->
             mem2 (bytes b2 + i) = mem1 (bytes b1 + i)) ->
  wire_sr mem2 b2 = wire_sr mem1 b1 /\
  wire_il mem2 b2 = wire_il mem1 b1 /\
  wire_hdr mem2 b2 = wire_hdr mem1 b1 /\
  wire_type_offset mem2 b2 = wire_type_offset mem1 b1 /\
  wire_type_length mem2 b2 = wire_type_length mem1 b1 /\
  wire_id_length mem2 b2 = wire_id_length mem1 b1 /\
  wire_payload_length mem2 b2 = wire_payload_length mem1 b1.
Proof.
  intros H.
  pose proof (wire_ranges mem1 b1) as (Hoff & _).
  assert (Hh : wire_hdr mem2 b2 = wire_hdr mem1 b1).
  { unfold wire_hdr. rewrite <- (Z.add_0_r (bytes b2)),
      <- (Z.add_0_r (bytes b1)). rewrite H by lia. reflexivity. }
  assert (Hsr : wire_sr mem2 b2 = wire_sr mem1 b1)
    by (unfold wire_sr; now rewrite Hh).
  assert (Hil : wire_il mem2 b2 = wire_il mem1 b1)
    by (unfold wire_il; now rewrite Hh).
  assert (Ho : wire_type_offset mem2 b2 = wire_type_offset mem1 b1)
    by (unfold wire_type_offset; now rewrite Hsr, Hil).
  repeat split; try assumption.
  - unfold wire_type_length. now rewrite H by lia.
  - unfold wire_id_length. rewrite Hil, Ho.
    destruct (wire_il mem1 b1); [|reflexivity]. now rewrite H by lia.
  - unfold wire_payload_length. rewrite Hsr.
    unfold wire_type_offset in H, Hoff.
    destruct (wire_sr mem1 b1), (wire_il mem1 b1);
      rewrite !H by lia; reflexivity.
Qed.

(** X4: the result of [nfc_ndef_rec_parse] only depends on the bytes of
    the block: two memories that agree inside the block give the same
    result, although the parser may read past the end of a short block. *)
Theorem parse_ignores_memory_outside_block
    (m1 m2 : memory) (block : GUtilData) :
  agree_on block m1 m2 ->
  value (nfc_ndef_rec_parse block) m1 = value (nfc_ndef_rec_parse block) m2.
Proof.
  intros A. rewrite !parse_is_wire_record. unfold wire_record.
  destruct (3 <=? size block) eqn:S3; [|reflexivity].
  apply Z.leb_le in S3. cbn [andb].
  pose proof (wire_ranges m1 block) as (Ho1 & Ht1 & Hi1 & Hp1).
  pose proof (wire_ranges m2 block) as (Ho2 & Ht2 & Hi2 & Hp2).
  destruct (Z.le_gt_cases (wire_type_offset m1 block) (size block)) as [L|G].
  - destruct (wire_transport m1 block m2 block)
      as (_ & _ & _ & Eo & Et & Ei & Ep).
    { intros i Hi. symmetry. apply A. unfold in_view. lia. }
    unfold wire_total. rewrite Eo, Et, Ei, Ep. reflexivity.
  - assert (Eo : wire_type_offset m2 block = wire_type_offset m1 block).
    { assert (Hh : wire_hdr m2 block = wire_hdr m1 block)
        by (unfold wire_hdr; rewrite (A (bytes block));
            [reflexivity|unfold in_view; lia]).
      unfold wire_type_offset, wire_sr, wire_il. now rewrite Hh. }
    replace (wire_total m1 block <=? size block) with false
      by (symmetry; apply Z.leb_gt; unfold wire_total; lia).
    replace (wire_total m2 block <=? size block) with false
      by (symmetry; apply Z.leb_gt; unfold wire_total; lia).
    now rewrite !andb_false_r.
Qed.

Lemma parse_ignores_memory_outside_block_witness :
  value (nfc_ndef_rec_parse (mkData 0 3)) (array_mem sample_long_id)
  = value (nfc_ndef_rec_parse (mkData 0 3))
          (place (firstn 3 sample_long_id) (fun _ => xff)).
Proof.
  apply parse_ignores_memory_outside_block.
  intros a [H1 H2]. cbn in H1, H2.
  assert (a = 0 \/ a = 1 \/ a = 2) as [-> | [-> | ->]] by lia;
    reflexivity.
Defined.

Lemma memread_nil mem p n : n <= 0 -> memread mem p n = [].
Proof.
  intros H. unfold memread. replace (Z.to_nat n) with O by lia. reflexivity.
Qed.

(** A view at offset [o] of a record whose wire copy was read at [p]. *)
Lemma view_of_memread r mem p s o n :
  raw r = memread mem p s -> 0 <= o -> 0 <= n -> o + n <= s ->
  view_of r (mkView (Some o) n) = memread mem (p + o) n.
Proof.
  intros Hr Ho Hn Hs. unfold view_of. cbn [ptr len]. rewrite Hr.
  replace s with (o + (n + (s - o - n))) by lia.
  rewrite memread_app by lia. rewrite (memread_app mem (p + o)) by lia.
  rewrite <- (memread_length mem p o) at 1.
  rewrite <- (memread_length mem (p + o) n) at 1.
  apply segment.
Qed.

Section Chains.
Context {ext : Externals}.

(** Every record of a chain comes from a successful parse at a tail of the
    block, of a record that is not chunked. *)
Lemma records_from_parsed mem (n : nat) : forall data r,
  (Z.to_nat (size data) <= n)%nat ->
  In r (records_from mem data) ->
  exists blk nd rest,
    value (nfc_ndef_rec_parse blk) mem = Some (nd, rest) /\
    chunked mem nd = false /\
    r = nfc_ndef_rec_alloc nd mem /\
    bytes data <= bytes blk /\
    bytes blk + size blk = bytes data + size data.
Proof.
  induction n as [|n IH]; intros data r Hn Hin;
    rewrite records_from_eq in Hin;
    destruct (0 <? size data) eqn:E; try (now destruct Hin);
    apply Z.ltb_lt in E; [lia|].
  destruct (value (nfc_ndef_rec_parse data) mem) as [[nd data']|] eqn:P;
    [|now destruct Hin].
  pose proof (parse_success _ _ _ _ P) as [[Kb Kt Ko Kf Ktl Kil Kpl Kr] _].
  apply in_app_or in Hin. destruct Hin as [Hin|Hin].
  - destruct (chunked mem nd) eqn:C; [now destruct Hin|].
    destruct Hin as [<-|[]].
    exists data, nd, data'. repeat split; try assumption; lia.
  - destruct (IH data' r) as (blk & nd' & rest & H1 & H2 & H3 & H4 & H5);
      [subst data'; cbn; lia|assumption|].
    exists blk, nd', rest. subst data'. cbn [bytes size] in *.
    repeat split; try assumption; lia.
Qed.

Lemma rec_new_parsed mem block r :
  In r (value (nfc_ndef_rec_new (Some block)) mem) ->
  r = g_object_new \/
  exists blk nd rest,
    value (nfc_ndef_rec_parse blk) mem = Some (nd, rest) /\
    chunked mem nd = false /\
    r = nfc_ndef_rec_alloc nd mem /\
    bytes block <= bytes blk /\
    bytes blk + size blk = bytes block + size block.
Proof.
  rewrite rec_new_value. destruct (size block =? 0).
  - intros [<-|[]]. now left.
  - intros Hin. right.
    now apply (records_from_parsed mem _ block r (le_n _)).
Qed.

End Chains.

(** X6: in every record of a chain that has wire bytes, the [type], [id]
    and [payload] views lie inside [raw], one after the other and without
    overlap, right after a header part of three to seven bytes, and they
    cover the rest of [raw]: [raw] is the header part followed by the type,
    the ID and the payload bytes. *)
Theorem record_layout {ext : Externals}
    (mem : memory) (block : GUtilData) (r : NfcNdefRec) :
  In r (value (nfc_ndef_rec_new (Some block)) mem) ->
  raw r <> [] ->
  exists off,
    ptr (type r) = Some off /\ 3 <= off <= 7 /\
    0 <= len (type r) < 256 /\ 0 <= len (id r) < 256 /\
    0 <= len (payload r) < 2 ^ 31 /\
    Z.of_nat (length (raw r))
    = off + len (type r) + len (id r) + len (payload r) /\
    length (view_of r (type r)) = Z.to_nat (len (type r)) /\
    length (view_of r (id r)) = Z.to_nat (len (id r)) /\
    length (view_of r (payload r)) = Z.to_nat (len (payload r)) /\
    raw r = firstn (Z.to_nat off) (raw r)
            ++ view_of r (type r) ++ view_of r (id r)
            ++ view_of r (payload r).
Proof.
  intros Hin Hraw.
  apply rec_new_parsed in Hin.
  destruct Hin as [->|(blk & nd & rest & P & _ & -> & _)];
    [now contradiction Hraw|].
  pose proof (parse_success _ _ _ _ P) as [[Kb Kt Ko Kf Ktl Kil Kpl Kr] _].
  destruct (alloc_shape nd mem) as (rtd0 & v & ->); [lia|].
  set (r := set_variant (nfc_ndef_rec_initialize g_object_new rtd0 nd mem) v).
  assert (Hr : raw r = memread mem (bytes (rec nd)) (size (rec nd)))
    by reflexivity.
  assert (Ht : type r = mkView (Some (type_offset nd)) (type_length nd))
    by reflexivity.
  assert (Vt : view_of r (type r)
               = memread mem (bytes (rec nd) + type_offset nd)
                         (type_length nd)).
  { rewrite Ht. apply view_of_memread with (s := size (rec nd));
      [exact Hr|lia..]. }
  assert (Hi : len (id r) = id_length nd /\
               view_of r (id r)
               = memread mem (bytes (rec nd)
                              + (type_offset nd + type_length nd))
                         (id_length nd)).
  { subst r. cbn [set_variant nfc_ndef_rec_initialize id g_object_new].
    destruct (0 <? id_length nd) eqn:E.
    - split; [reflexivity|].
      apply view_of_memread with (s := size (rec nd));
        [reflexivity|lia..].
    - apply Z.ltb_ge in E. assert (id_length nd = 0) as -> by lia.
      split; reflexivity. }
  assert (Hp : len (payload r) = payload_length nd /\
               view_of r (payload r)
               = memread mem (bytes (rec nd)
                              + (type_offset nd + type_length nd
                                 + id_length nd))
                         (payload_length nd)).
  { subst r. cbn [set_variant nfc_ndef_rec_initialize payload g_object_new].
    destruct (payload_length nd =? 0) eqn:E; cbn [negb].
    - apply Z.eqb_eq in E. rewrite E. split; reflexivity.
    - split; [reflexivity|].
      apply view_of_memread with (s := size (rec nd));
        [reflexivity|lia..]. }
  destruct Hi as [Li Vi]. destruct Hp as [Lp Vp].
  exists (type_offset nd).
  rewrite Vt, Vi, Vp, Li, Lp, Ht, Hr. cbn [ptr len].
  rewrite !memread_length.
  repeat split; try lia.
  rewrite Kt.
  replace (type_offset nd + type_length nd + id_length nd
           + payload_length nd)
    with (type_offset nd
          + (type_length nd + (id_length nd + payload_length nd))) by lia.
  rewrite memread_app by lia.
  rewrite (memread_app mem (bytes (rec nd) + type_offset nd)) by lia.
  rewrite (memread_app mem (bytes (rec nd) + type_offset nd
                            + type_length nd)) by lia.
  rewrite firstn_app, memread_length, Nat.sub_diag. cbn [firstn].
  rewrite app_nil_r.
  rewrite <- (memread_length mem (bytes (rec nd)) (type_offset nd)) at 1.
  rewrite firstn_all.
  rewrite !Z.add_assoc. reflexivity.
Qed.

Lemma record_layout_witness :
  let r := @nfc_ndef_rec_alloc sample_ext (mkNdef (mkData 0 11) 7 1 1 2)
             (array_mem sample_long_id) in
  exists off,
    ptr (type r) = Some off /\ 3 <= off <= 7 /\
    raw r = firstn (Z.to_nat off) (raw r)
            ++ view_of r (type r) ++ view_of r (id r)
            ++ view_of r (payload r).
Proof.
  intros r.
  destruct (@record_layout sample_ext (array_mem sample_long_id)
              (whole sample_long_id) r)
    as (off & H1 & H2 & _ & _ & _ & _ & _ & _ & _ & H3).
  - left; reflexivity.
  - discriminate.
  - exists off. exact (conj H1 (conj H2 H3)).
Defined.

(** X7: the flags and the TNF of a parsed record are read off its header
    byte: First is the MB bit, Last the ME bit, and the TNF is the 3-bit
    field when it is below [NFC_NDEF_TNF_MAX], else Empty. *)
Theorem record_fields_from_header {ext : Externals}
    (mem : memory) (block : GUtilData) (r : NfcNdefRec) (h : Z) :
  In r (value (nfc_ndef_rec_new (Some block)) mem) ->
  header r = Some h ->
  flag_first (flags r) = bit_set h NFC_NDEF_HDR_MB /\
  flag_last (flags r) = bit_set h NFC_NDEF_HDR_ME /\
  tnf r = (if Z.land h NFC_NDEF_HDR_TNF_MASK <? NFC_NDEF_TNF_MAX
           then Z.land h NFC_NDEF_HDR_TNF_MASK else NFC_NDEF_TNF_EMPTY).
Proof.
  intros Hin Hh.
  apply rec_new_shape in Hin.
  destruct Hin as [->|(nd & rtd0 & v & -> & _ & Hs)]; [discriminate|].
  rewrite initialize_header in Hh by lia. injection Hh as <-.
  cbn [set_variant nfc_ndef_rec_initialize flags flag_first flag_last tnf
       g_object_new].
  repeat split.
  - now destruct (bit_set _ NFC_NDEF_HDR_MB).
  - now destruct (bit_set _ NFC_NDEF_HDR_ME).
Qed.

Lemma record_fields_from_header_witness :
  let r := @nfc_ndef_rec_alloc sample_ext (mkNdef (mkData 0 11) 7 1 1 2)
             (array_mem sample_long_id) in
  flag_first (flags r) = true /\ flag_last (flags r) = false /\ tnf r = 1.
Proof.
  intros r.
  apply (@record_fields_from_header sample_ext (array_mem sample_long_id)
           (whole sample_long_id) r 0x89); [left; reflexivity|reflexivity].
Defined.

Lemma chain_wire_app a b : chain_wire (a ++ b) = chain_wire a ++ chain_wire b.
Proof. unfold chain_wire. now rewrite map_app, concat_app. Qed.

Section Wire.
Context {ext : Externals}.

Lemma alloc_raw nd mem :
  size (rec nd) <> 0 ->
  raw (nfc_ndef_rec_alloc nd mem)
  = memread mem (bytes (rec nd)) (size (rec nd)).
Proof.
  intros H. destruct (alloc_shape nd mem H) as (rtd0 & v & ->). reflexivity.
Qed.

Lemma records_from_wire_bound mem (n : nat) : forall data,
  (Z.to_nat (size data) <= n)%nat ->
  Z.of_nat (length (chain_wire (records_from mem data)))
  <= Z.max 0 (size data) /\
  3 * Z.of_nat (length (records_from mem data))
  <= Z.of_nat (length (chain_wire (records_from mem data))) /\
  Forall (fun r => (3 <= length (raw r))%nat) (records_from mem data).
Proof.
  induction n as [|n IH]; intros data Hn;
    rewrite records_from_eq;
    (destruct (0 <? size data) eqn:E;
     [apply Z.ltb_lt in E
     |cbn; split; [lia|split; [lia|apply Forall_nil]]]); [lia|].
  destruct (value (nfc_ndef_rec_parse data) mem) as [[nd data']|] eqn:P;
    [|cbn; split; [lia|split; [lia|apply Forall_nil]]].
  pose proof (parse_success _ _ _ _ P) as [[Kb Kt Ko Kf Ktl Kil Kpl Kr] _].
  destruct (IH data') as (I1 & I2 & I3); [subst data'; cbn; lia|].
  rewrite chain_wire_app, !length_app.
  assert (Sd : size data' = size data - size (rec nd))
    by (subst data'; reflexivity).
  destruct (chunked mem nd).
  - cbn [chain_wire map concat length app Nat.add].
    repeat split; [lia|lia|exact I3].
  - unfold chain_wire at 1 3. cbn [map concat]. rewrite app_nil_r.
    rewrite alloc_raw by lia. rewrite memread_length.
    cbn [length]. repeat split; [lia|lia|].
    constructor; [|exact I3].
    rewrite alloc_raw by lia. rewrite memread_length. lia.
Qed.

Lemma parses_wire mem data ndefs rest :
  parses mem data ndefs rest ->
  chain_wire (map (fun nd => nfc_ndef_rec_alloc nd mem) ndefs)
  = memread mem (bytes data) (size data - size rest) /\
  size rest <= size data /\
  bytes rest = bytes data + (size data - size rest).
Proof.
  induction 1 as [data|data nd data' ndefs rest P _ IH].
  - cbn. rewrite Z.sub_diag, Z.add_0_r. repeat split; lia.
  - destruct IH as (I1 & I2 & I3).
    pose proof (parse_success _ _ _ _ P) as [[Kb Kt Ko Kf Ktl Kil Kpl Kr] _].
    assert (Sd : size data' = size data - size (rec nd))
      by (subst data'; reflexivity).
    assert (Bd : bytes data' = bytes data + size (rec nd))
      by (subst data'; reflexivity).
    cbn [map]. change (chain_wire (?r :: ?l)) with (raw r ++ chain_wire l).
    rewrite I1, alloc_raw by lia.
    rewrite Kb, Bd.
    rewrite <- memread_app by lia.
    repeat split; [f_equal; lia|lia|lia].
Qed.

End Wire.

(** X5: for a non-empty block, every record of the chain
    [nfc_ndef_rec_new] returns owns at least three wire bytes, the wire
    bytes of all the records together are no more than the block, and so
    the chain has at most a third as many records as the block has
    bytes. *)
Theorem chain_length_bounded {ext : Externals}
    (mem : memory) (block : GUtilData) :
  0 < size block ->
  let chain := value (nfc_ndef_rec_new (Some block)) mem in
  Forall (fun r => (3 <= length (raw r))%nat) chain /\
  Z.of_nat (length (chain_wire chain)) <= size block /\
  3 * Z.of_nat (length chain) <= size block.
Proof.
  intros Hs chain. subst chain. rewrite rec_new_value.
  destruct (size block =? 0) eqn:Z0; [apply Z.eqb_eq in Z0; lia|].
  destruct (records_from_wire_bound mem _ block (le_n _)) as (B1 & B2 & B3).
  repeat split; [exact B3|lia|lia].
Qed.

Lemma chain_length_bounded_witness :
  3 * Z.of_nat (length (value (@nfc_ndef_rec_new sample_ext
                                 (Some (whole sample_two)))
                              (array_mem sample_two))) <= 10.
Proof.
  apply (@chain_length_bounded sample_ext (array_mem sample_two)
           (whole sample_two)). cbn; lia.
Defined.

(** X8: when a non-empty block starts with records that parse one after
    the other, none of them chunked, up to a point where the parse fails,
    the wire copies of the records of the chain, concatenated in chain
    order, are exactly the bytes of the block consumed by the parse; they
    are the whole block when nothing is left. *)
Theorem chain_wire_reassembles {ext : Externals}
    (mem : memory) (data : GUtilData) (ndefs : list NfcNdefData)
    (rest : GUtilData) :
  size data <> 0 ->
  parses mem data ndefs rest ->
  Forall (fun nd => chunked mem nd = false) ndefs ->
  value (nfc_ndef_rec_parse rest) mem = None ->
  let chain := value (nfc_ndef_rec_new (Some data)) mem in
  chain_wire chain = memread mem (bytes data) (size data - size rest) /\
  (size rest = 0 -> chain_wire chain = view_bytes mem data).
Proof.
  intros Hne Hp Hc Hfail chain.
  assert (E : chain_wire chain
              = memread mem (bytes data) (size data - size rest)).
  { subst chain. rewrite rec_new_value.
    destruct (size data =? 0) eqn:Z0; [apply Z.eqb_eq in Z0; lia|].
    rewrite (parses_records_from mem data ndefs rest Hp Hfail).
    rewrite records_of_unchunked by assumption.
    apply parses_wire. exact Hp. }
  split; [exact E|].
  intros Hr. rewrite E, Hr, Z.sub_0_r. reflexivity.
Qed.

Lemma chain_wire_reassembles_witness :
  chain_wire (value (@nfc_ndef_rec_new sample_ext (Some (whole sample_two)))
                    (array_mem sample_two))
  = view_bytes (array_mem sample_two) (whole sample_two).
Proof.
  apply (@chain_wire_reassembles sample_ext (array_mem sample_two)
           (whole sample_two)
           [mkNdef (mkData 0 6) 3 1 0 2; mkNdef (mkData 6 4) 3 1 0 0]
           (mkData 10 0)).
  - cbn; lia.
  - apply parses_cons with (data' := mkData 6 4); [reflexivity|].
    apply parses_cons with (data' := mkData 10 0); [reflexivity|].
    apply parses_nil.
  - repeat constructor.
  - reflexivity.
  - reflexivity.
Defined.

(** X10: for a parsed descriptor, the views [nfc_ndef_type] and
    [nfc_ndef_payload] return hold the bytes of the [type] and [payload]
    views of the record initialized from it, with the same sizes; when not
    empty they lie inside the parsed block, the type before the
    payload. *)
Theorem descriptor_views_match_record {ext : Externals}
    (mem : memory) (block : GUtilData) (ndef : NfcNdefData)
    (rest : GUtilData) (rtd0 : NFC_NDEF_RTD) :
  value (nfc_ndef_rec_parse block) mem = Some (ndef, rest) ->
  let r := nfc_ndef_rec_initialize g_object_new rtd0 ndef mem in
  let t := nfc_ndef_type ndef in
  let p := nfc_ndef_payload ndef in
  view_bytes mem t = view_of r (type r) /\
  view_bytes mem p = view_of r (payload r) /\
  size t = len (type r) /\ size p = len (payload r) /\
  (size t <> 0 -> bytes block <= bytes t /\
                  bytes t + size t <= bytes block + size block) /\
  (size p <> 0 -> bytes block <= bytes p /\
                  bytes p + size p <= bytes block + size block) /\
  (size t <> 0 -> size p <> 0 -> bytes t + size t <= bytes p).
Proof.
  intros P r t p.
  pose proof (parse_success _ _ _ _ P) as [[Kb Kt Ko Kf Ktl Kil Kpl Kr] _].
  assert (Hr : raw r = memread mem (bytes (rec ndef)) (size (rec ndef)))
    by reflexivity.
  assert (Vt : view_of r (type r)
               = memread mem (bytes (rec ndef) + type_offset ndef)
                         (type_length ndef)).
  { change (type r)
      with (mkView (Some (type_offset ndef)) (type_length ndef)).
    apply view_of_memread with (s := size (rec ndef)); [exact Hr|lia..]. }
  subst t p. unfold nfc_ndef_type, nfc_ndef_payload, view_bytes.
  subst r. cbn [nfc_ndef_rec_initialize payload type g_object_new len].
  cbn [nfc_ndef_rec_initialize payload type g_object_new len] in Vt.
  destruct (type_length ndef =? 0) eqn:Et;
    destruct (payload_length ndef =? 0) eqn:Ep; cbn [negb bytes size len];
    rewrite ?Z.eqb_eq, ?Z.eqb_neq in *;
    rewrite Vt; rewrite ?Et;
    repeat split; try reflexivity; try lia;
    try (now rewrite !memread_nil by lia).
  all: try (symmetry; apply view_of_memread with (s := size (rec ndef));
            [reflexivity|lia..]).
  all: try (rewrite view_of_memread
              with (mem := mem) (p := bytes (rec ndef))
                   (s := size (rec ndef)) by (try reflexivity; lia);
            f_equal; lia).
Qed.

Lemma descriptor_views_match_record_witness :
  let nd := mkNdef (mkData 0 11) 7 1 1 2 in
  view_bytes (array_mem sample_long_id) (nfc_ndef_type nd) = bytes_of [0x78]
  /\
  view_bytes (array_mem sample_long_id) (nfc_ndef_payload nd)
  = bytes_of [0x41; 0x42].
Proof.
  intros nd.
  pose proof (@descriptor_views_match_record sample_ext
                (array_mem sample_long_id) (whole sample_long_id) nd
                (mkData 11 0) NFC_NDEF_RTD_UNKNOWN eq_refl)
    as (H1 & H2 & _).
  exact (conj H1 H2).
Defined.

Lemma memread_ext m1 p1 m2 p2 n :
  (forall i, 0 <= i < n -> m2 (p2 + i) = m1 (p1 + i)) ->
  memread m2 p2 n = memread m1 p1 n.
Proof.
  intros H. unfold memread. apply map_ext_in. intros i Hi.
  apply in_seq in Hi. apply H. lia.
Qed.

Lemma byte_list_eqb_false a b : a <> b -> byte_list_eqb a b = false.
Proof.
  intros H. unfold byte_list_eqb.
  destruct (list_eq_dec _ a b); [contradiction|reflexivity].
Qed.

(** The type bytes the factory compares are the [type_length] bytes at
    [type_offset]. *)
Lemma type_view_bytes mem nd :
  0 <= type_length nd ->
  view_bytes mem (nfc_ndef_type nd)
  = memread mem (bytes (rec nd) + type_offset nd) (type_length nd).
Proof.
  intros H. unfold nfc_ndef_type, view_bytes.
  destruct (type_length nd =? 0) eqn:E; cbn [negb bytes size];
    [|reflexivity].
  apply Z.eqb_eq in E. rewrite E. reflexivity.
Qed.

Section Reparse.
Context {ext : Externals}.

Lemma single_record_chain mem block nd rest :
  value (nfc_ndef_rec_parse block) mem = Some (nd, rest) ->
  size rest <= 0 ->
  chunked mem nd = false ->
  value (nfc_ndef_rec_new (Some block)) mem = [nfc_ndef_rec_alloc nd mem].
Proof.
  intros P Hr C.
  pose proof (parse_success _ _ _ _ P) as [[Kb Kt Ko Kf Ktl Kil Kpl Kr] _].
  rewrite rec_new_value.
  destruct (size block =? 0) eqn:Z0; [apply Z.eqb_eq in Z0; lia|].
  rewrite records_from_eq.
  destruct (0 <? size block) eqn:Z1; [|apply Z.ltb_ge in Z1; lia].
  rewrite P, C, records_from_eq.
  destruct (0 <? size rest) eqn:Z2; [apply Z.ltb_lt in Z2; lia|].
  reflexivity.
Qed.

(** Without a type of "U" or "T" the factory makes the generic record. *)
Lemma alloc_generic nd mem :
  size (rec nd) <> 0 ->
  view_bytes mem (nfc_ndef_type nd) <> nfc_ndef_rec_type_u ->
  view_bytes mem (nfc_ndef_type nd) <> nfc_ndef_rec_type_t ->
  nfc_ndef_rec_alloc nd mem = generic_rec nd mem.
Proof.
  intros Hs HU HT. unfold nfc_ndef_rec_alloc.
  apply Z.eqb_neq in Hs. rewrite Hs. cbn [negb].
  unfold gutil_data_equal.
  rewrite (byte_list_eqb_false _ _ HU), (byte_list_eqb_false _ _ HT).
  now rewrite !andb_false_r.
Qed.

(** [nfc_ndef_rec_initialize] only looks at the record bytes and the
    offsets. *)
Lemma initialize_transport self rtd0 nd1 m1 nd2 m2 :
  memread m2 (bytes (rec nd2)) (size (rec nd2))
  = memread m1 (bytes (rec nd1)) (size (rec nd1)) ->
  m2 (bytes (rec nd2)) = m1 (bytes (rec nd1)) ->
  type_offset nd2 = type_offset nd1 ->
  type_length nd2 = type_length nd1 ->
  id_length nd2 = id_length nd1 ->
  payload_length nd2 = payload_length nd1 ->
  nfc_ndef_rec_initialize self rtd0 nd2 m2
  = nfc_ndef_rec_initialize self rtd0 nd1 m1.
Proof.
  intros Hr Hh Ho Ht Hi Hp. unfold nfc_ndef_rec_initialize.
  now rewrite Hr, Hh, Ho, Ht, Hi, Hp.
Qed.

End Reparse.

(** X9: parsing the wire copy [raw] of a parsed record gives a single
    record that agrees with it on TNF, flags, wire bytes and views; when
    the type is neither "U" nor "T" it is the same record. *)
Theorem reparse_record_wire {ext : Externals}
    (mem : memory) (block : GUtilData) (r : NfcNdefRec) :
  In r (value (nfc_ndef_rec_new (Some block)) mem) ->
  raw r <> [] ->
  exists r',
    value (nfc_ndef_rec_new (Some (whole (raw r)))) (array_mem (raw r))
    = [r'] /\
    same_wire r' r /\
    (view_of r (type r) <> nfc_ndef_rec_type_u ->
     view_of r (type r) <> nfc_ndef_rec_type_t ->
     r' = r).
Proof.
  intros Hin Hraw.
  apply rec_new_parsed in Hin.
  destruct Hin as [->|(blk & nd & rest & P & C & -> & _)];
    [now contradiction Hraw|].
  pose proof (parse_success _ _ _ _ P) as [[Kb Kt Ko Kf Ktl Kil Kpl Kr] _].
  assert (Hs : size (rec nd) <> 0) by lia.
  set (R := raw (nfc_ndef_rec_alloc nd mem)).
  assert (HR : R = memread mem (bytes blk) (size (rec nd)))
    by (subst R; rewrite alloc_raw by exact Hs; now rewrite Kb).
  assert (LR : Z.of_nat (length R) = size (rec nd))
    by (rewrite HR, memread_length; lia).
  pose (m2 := array_mem R). pose (b2 := whole R).
  assert (A : forall i, 0 <= i < size (rec nd) ->
                m2 (bytes b2 + i) = mem (bytes blk + i)).
  { intros i Hi. subst m2 b2. unfold whole, array_mem. cbn [bytes].
    destruct (0 + i <? 0) eqn:N; [apply Z.ltb_lt in N; lia|].
    rewrite HR, memread_nth by lia. f_equal. lia. }
  (* the descriptor, in terms of the layout *)
  pose proof P as W. rewrite parse_is_wire_record in W.
  unfold wire_record in W.
  destruct (_ && _) eqn:Cond in W; [|discriminate].
  apply Some_pair_inj in W. destruct W as [W _].
  apply andb_prop in Cond. destruct Cond as [Cond _].
  apply andb_prop in Cond. destruct Cond as [_ Cpl].
  assert (Eo : type_offset nd = wire_type_offset mem blk) by now rewrite <- W.
  assert (Et : type_length nd = wire_type_length mem blk) by now rewrite <- W.
  assert (Ei : id_length nd = wire_id_length mem blk) by now rewrite <- W.
  assert (Ep : payload_length nd = wire_payload_length mem blk)
    by now rewrite <- W.
  destruct (wire_transport mem blk m2 b2)
    as (_ & _ & Th & To & Tt & Ti & Tp).
  { intros i Hi. apply A. lia. }
  set (nd2 := mkNdef (mkData 0 (size (rec nd))) (type_offset nd)
                     (type_length nd) (id_length nd) (payload_length nd)).
  assert (P2 : value (nfc_ndef_rec_parse b2) m2
               = Some (nd2, mkData (size (rec nd)) 0)).
  { rewrite parse_is_wire_record. unfold wire_record, wire_total.
    rewrite To, Tt, Ti, Tp, <- Eo, <- Et, <- Ei, <- Ep, <- Kt.
    change (size b2) with (Z.of_nat (length R)). rewrite LR.
    change (2 ^ 31) with 2147483648 in *.
    replace (3 <=? size (rec nd)) with true
      by (symmetry; apply Z.leb_le; lia).
    replace (payload_length nd <? 2147483648) with true
      by (symmetry; apply Z.ltb_lt; lia).
    rewrite Z.leb_refl. cbn [andb]. subst nd2.
    change (bytes b2) with 0. rewrite Z.sub_diag. reflexivity. }
  assert (Hh : m2 0 = mem (bytes (rec nd))).
  { rewrite Kb. rewrite <- (Z.add_0_r (bytes blk)).
    rewrite <- (A 0) by lia. reflexivity. }
  assert (C2 : chunked m2 nd2 = false)
    by (unfold chunked in *; cbn [nd2 rec bytes]; now rewrite Hh).
  assert (I : forall rtd0,
             nfc_ndef_rec_initialize g_object_new rtd0 nd2 m2
             = nfc_ndef_rec_initialize g_object_new rtd0 nd mem).
  { intros rtd0. apply initialize_transport; try reflexivity.
    - cbn [nd2 rec bytes size]. rewrite Kb, <- HR, <- LR.
      apply memread_array.
    - exact Hh. }
  assert (TV : view_bytes m2 (nfc_ndef_type nd2)
               = view_bytes mem (nfc_ndef_type nd)).
  { rewrite !type_view_bytes by (cbn [nd2 type_length]; lia).
    cbn [nd2 rec bytes type_offset type_length].
    apply memread_ext. intros i Hi.
    replace (0 + type_offset nd + i) with (bytes b2 + (type_offset nd + i))
      by (subst b2; unfold whole; cbn [bytes]; lia).
    rewrite A by lia. rewrite Kb. f_equal. lia. }
  exists (nfc_ndef_rec_alloc nd2 m2).
  split; [apply (single_record_chain m2 b2 nd2 _ P2); [cbn; lia|exact C2]|].
  split.
  - destruct (alloc_shape nd2 m2) as (rtd2 & v2 & ->);
      [cbn [nd2 rec size]; exact Hs|].
    destruct (alloc_shape nd mem Hs) as (rtd1 & v1 & ->).
    rewrite I. repeat split.
  - intros HU HT.
    assert (VT : view_of (nfc_ndef_rec_alloc nd mem)
                         (type (nfc_ndef_rec_alloc nd mem))
                 = view_bytes mem (nfc_ndef_type nd)).
    { rewrite type_view_bytes by lia.
      destruct (alloc_shape nd mem Hs) as (rtd1 & v1 & ->).
      change (type _)
        with (mkView (Some (type_offset nd)) (type_length nd)).
      apply view_of_memread with (s := size (rec nd));
        [reflexivity|lia..]. }
    rewrite VT in HU, HT.
    rewrite (alloc_generic nd mem Hs HU HT).
    rewrite alloc_generic;
      [|cbn [nd2 rec size]; exact Hs|now rewrite TV|now rewrite TV].
    unfold generic_rec. apply I.
Qed.

Lemma reparse_record_wire_witness :
  let r := @nfc_ndef_rec_alloc sample_ext (mkNdef (mkData 6 4) 3 1 0 0)
             (array_mem sample_two) in
  exists r',
    value (@nfc_ndef_rec_new sample_ext (Some (whole (raw r))))
          (array_mem (raw r)) = [r'] /\ r' = r.
Proof.
  intros r.
  destruct (@reparse_record_wire sample_ext (array_mem sample_two)
              (whole sample_two) r) as (r' & H1 & _ & H2).
  - right; left; reflexivity.
  - discriminate.
  - exists r'. split; [exact H1|]. apply H2; discriminate.
Defined.

(** ** The version word *)

Lemma lor_shiftl_add hi lo k :
  0 <= k -> 0 <= lo < 2 ^ k -> Z.lor (Z.shiftl hi k) lo = hi * 2 ^ k + lo.
Proof.
  intros Hk Hlo.
  assert (D : Z.land (Z.shiftl hi k) lo = 0).
  { apply Z.bits_inj'. intros n Hn.
    rewrite Z.land_spec, Z.bits_0.
    destruct (Z.ltb_spec n k) as [L|G].
    - now rewrite Z.shiftl_spec_low.
    - rewrite <- (Z.mod_small lo (2 ^ k)) by lia.
      rewrite Z.mod_pow2_bits_high by lia. apply andb_false_r. }
  rewrite <- Z.lxor_lor by exact D.
  rewrite <- Z.add_nocarry_lxor by exact D.
  now rewrite Z.shiftl_mul_pow2.
Qed.

Lemma version_word_value v1 v2 v3 :
  NFC_VERSION_WORD v1 v2 v3
  = (v1 mod 128) * 2 ^ 24 + (v2 mod 4096) * 2 ^ 12 + v3 mod 4096.
Proof.
  unfold NFC_VERSION_WORD.
  change 0x7f with (Z.ones 7). change 0xfff with (Z.ones 12).
  rewrite !Z.land_ones by lia.
  change (2 ^ 7) with 128. change (2 ^ 12) with 4096.
  pose proof (Z.mod_pos_bound v1 128 ltac:(lia)).
  pose proof (Z.mod_pos_bound v2 4096 ltac:(lia)).
  pose proof (Z.mod_pos_bound v3 4096 ltac:(lia)).
  rewrite (Z.shiftl_mul_pow2 (v2 mod 4096)) by lia.
  rewrite lor_shiftl_add by lia.
  replace (v1 mod 128 * 2 ^ 24 + v2 mod 4096 * 2 ^ 12)
    with ((v1 mod 128 * 4096 + v2 mod 4096) * 2 ^ 12) by lia.
  rewrite <- Z.shiftl_mul_pow2 by lia.
  rewrite lor_shiftl_add by lia. lia.
Qed.

Lemma version_get_value v :
  NFC_VERSION_GET_MAJOR v = (v / 2 ^ 24) mod 128 /\
  NFC_VERSION_GET_MINOR v = (v / 2 ^ 12) mod 4096 /\
  NFC_VERSION_GET_NANO v = v mod 4096.
Proof.
  unfold NFC_VERSION_GET_MAJOR, NFC_VERSION_GET_MINOR, NFC_VERSION_GET_NANO.
  change 0x7f with (Z.ones 7). change 0xfff with (Z.ones 12).
  rewrite !Z.land_ones, !Z.shiftr_div_pow2 by lia.
  repeat split.
Qed.

(** X11: [NFC_VERSION_WORD] packs into a non-negative 31-bit word from
    which [NFC_VERSION_GET_MAJOR], [NFC_VERSION_GET_MINOR] and
    [NFC_VERSION_GET_NANO] give back the components masked to 7, 12 and 12
    bits; components within these ranges come back unchanged. *)
Theorem version_unpack_pack (v1 v2 v3 : Z) :
  let w := NFC_VERSION_WORD v1 v2 v3 in
  0 <= w < 2 ^ 31 /\
  NFC_VERSION_GET_MAJOR w = v1 mod 128 /\
  NFC_VERSION_GET_MINOR w = v2 mod 4096 /\
  NFC_VERSION_GET_NANO w = v3 mod 4096 /\
  (0 <= v1 < 128 -> 0 <= v2 < 4096 -> 0 <= v3 < 4096 ->
   NFC_VERSION_GET_MAJOR w = v1 /\ NFC_VERSION_GET_MINOR w = v2 /\
   NFC_VERSION_GET_NANO w = v3).
Proof.
  intros w.
  pose proof (version_word_value v1 v2 v3) as E. fold w in E.
  pose proof (Z.mod_pos_bound v1 128 ltac:(lia)) as H1.
  pose proof (Z.mod_pos_bound v2 4096 ltac:(lia)) as H2.
  pose proof (Z.mod_pos_bound v3 4096 ltac:(lia)) as H3.
  destruct (version_get_value w) as (GM & GN & GO).
  assert (D24 : w / 2 ^ 24 = v1 mod 128)
    by (symmetry;
        apply Z.div_unique with (r := (v2 mod 4096) * 2 ^ 12 + v3 mod 4096);
        lia).
  assert (D12 : w / 2 ^ 12 = (v1 mod 128) * 4096 + v2 mod 4096)
    by (symmetry; apply Z.div_unique with (r := v3 mod 4096); lia).
  assert (M : NFC_VERSION_GET_MAJOR w = v1 mod 128)
    by (rewrite GM, D24; apply Z.mod_small; lia).
  assert (N : NFC_VERSION_GET_MINOR w = v2 mod 4096).
  { rewrite GN, D12. symmetry.
    apply Z.mod_unique with (q := v1 mod 128); lia. }
  assert (O : NFC_VERSION_GET_NANO w = v3 mod 4096).
  { rewrite GO. symmetry.
    apply Z.mod_unique with (q := (v1 mod 128) * 4096 + v2 mod 4096); lia. }
  split; [lia|]. split; [exact M|]. split; [exact N|]. split; [exact O|].
  intros R1 R2 R3.
  rewrite M, N, O. rewrite !Z.mod_small by lia. repeat split.
Qed.

Lemma version_unpack_pack_witness :
  NFC_VERSION_GET_MAJOR NFC_CORE_VERSION = NFC_VERSION_MAJOR /\
  NFC_VERSION_GET_MINOR NFC_CORE_VERSION = NFC_VERSION_MINOR /\
  NFC_VERSION_GET_NANO NFC_CORE_VERSION = NFC_VERSION_NANO.
Proof.
  apply (proj2 (proj2 (proj2 (proj2
           (version_unpack_pack NFC_VERSION_MAJOR NFC_VERSION_MINOR
              NFC_VERSION_NANO)))));
    unfold NFC_VERSION_MAJOR, NFC_VERSION_MINOR, NFC_VERSION_NANO; lia.
Defined.

(** X12: every version word in [0, 2^31) is rebuilt by
    [NFC_VERSION_WORD] from the three components the GET macros extract
    from it. *)
Theorem version_pack_unpack (v : Z) :
  0 <= v < 2 ^ 31 ->
  NFC_VERSION_WORD (NFC_VERSION_GET_MAJOR v) (NFC_VERSION_GET_MINOR v)
                   (NFC_VERSION_GET_NANO v) = v.
Proof.
  intros Hv. rewrite version_word_value.
  destruct (version_get_value v) as (-> & -> & ->).
  rewrite !Z.mod_mod by lia.
  assert (Q : v / 2 ^ 24 = v / 2 ^ 12 / 2 ^ 12)
    by (rewrite Z.div_div by lia; reflexivity).
  pose proof (Z.div_mod v (2 ^ 12) ltac:(lia)) as A.
  pose proof (Z.div_mod (v / 2 ^ 12) (2 ^ 12) ltac:(lia)) as B.
  assert (S : 0 <= v / 2 ^ 24 < 128).
  { split; [apply Z.div_pos; lia|].
    apply Z.div_lt_upper_bound; lia. }
  rewrite (Z.mod_small (v / 2 ^ 24)) by lia.
  change (2 ^ 12) with 4096 in *. lia.
Qed.

Lemma version_pack_unpack_witness :
  NFC_VERSION_WORD (NFC_VERSION_GET_MAJOR 0x0100100C)
    (NFC_VERSION_GET_MINOR 0x0100100C) (NFC_VERSION_GET_NANO 0x0100100C)
  = 0x0100100C.
Proof.
  apply version_pack_unpack. lia.
Defined.

(** X13: for components within their ranges the version word is
    [major * 2^24 + minor * 2^12 + nano]; comparing two version words as
    integers compares (major, minor, nano) lexicographically, and equal
    words have equal components. *)
Theorem version_word_order (a b c a' b' c' : Z) :
  0 <= a < 128 -> 0 <= b < 4096 -> 0 <= c < 4096 ->
  0 <= a' < 128 -> 0 <= b' < 4096 -> 0 <= c' < 4096 ->
  NFC_VERSION_WORD a b c = a * 2 ^ 24 + b * 2 ^ 12 + c /\
  (NFC_VERSION_WORD a b c < NFC_VERSION_WORD a' b' c' <->
   a < a' \/ (a = a' /\ (b < b' \/ (b = b' /\ c < c')))) /\
  (NFC_VERSION_WORD a b c = NFC_VERSION_WORD a' b' c' <->
   a = a' /\ b = b' /\ c = c').
Proof.
  intros. rewrite !version_word_value.
  rewrite !Z.mod_small by lia. repeat split; intros; lia.
Qed.

Lemma version_word_order_witness :
  NFC_VERSION_WORD 1 1 12 < NFC_VERSION_WORD 1 2 0.
Proof.
  apply (proj1 (proj2 (version_word_order 1 1 12 1 2 0
                         ltac:(lia) ltac:(lia) ltac:(lia)
                         ltac:(lia) ltac:(lia) ltac:(lia)))).
  lia.
Defined.

Lemma wire_record_huge mem block :
  2 ^ 31 <= wire_payload_length mem block -> wire_record mem block = None.
Proof.
  intros H. unfold wire_record. apply Z.ltb_ge in H. rewrite H.
  now rewrite andb_false_r.
Qed.

Lemma array_mem_nth buf (i : nat) :
  (i < length buf)%nat -> array_mem buf (Z.of_nat i) = nth i buf x00.
Proof.
  intros H. unfold array_mem.
  destruct (Z.of_nat i <? 0) eqn:E; [apply Z.ltb_lt in E; lia|].
  now rewrite Nat2Z.id.
Qed.

(** X14: for a media type shorter than 256 characters and a payload
    shorter than 256 bytes (or none), none of the assertions of
    [test_ndef_record_new] fails: the record it writes parses into exactly
    one record, with both flags set, the TNF field 2 (MediaType) when that
    is below the TNF bound, no ID, the media type as type and the payload
    as payload. *)
Theorem test_ndef_record_new_parses {ext : Externals}
    (mem : memory) (mediatype : list byte) (pay : option GUtilData) :
  Z.of_nat (length mediatype) < 0x100 ->
  match pay with Some p => 0 <= size p < 0x100 | None => True end ->
  let P := match pay with Some p => view_bytes mem p | None => [] end in
  exists r,
    test_ndef_record_new mediatype pay mem = Some [r] /\
    raw r = test_record_bytes mediatype pay mem /\
    flags r = mkFlags true true /\
    tnf r = (if 2 <? NFC_NDEF_TNF_MAX then 2 else NFC_NDEF_TNF_EMPTY) /\
    view_of r (type r) = mediatype /\
    id r = null_view /\
    view_of r (payload r) = P.
Proof.
  intros Hm Hp P.
  set (tl := Z.of_nat (length mediatype)).
  set (pl := match pay with Some p => size p | None => 0 end).
  assert (Hpl : 0 <= pl < 0x100) by (subst pl; destruct pay; lia).
  assert (Htl : 0 <= tl < 0x100) by (subst tl; lia).
  set (hdrs := [to_u8 0xd2; to_u8 tl; to_u8 pl]).
  assert (B : test_record_bytes mediatype pay mem
              = hdrs ++ mediatype ++ P).
  { unfold test_record_bytes. fold tl. fold pl. subst P hdrs.
    cbn [app]. repeat f_equal.
    destruct pay as [p|]; [|reflexivity].
    destruct (pl =? 0) eqn:E; cbn [negb]; [|reflexivity].
    apply Z.eqb_eq in E. unfold view_bytes. subst pl. rewrite E.
    reflexivity. }
  assert (LP : length P = Z.to_nat pl).
  { subst P pl. destruct pay as [p|]; [|reflexivity].
    unfold view_bytes. apply memread_length. }
  set (buf := test_record_bytes mediatype pay mem) in *.
  set (m2 := array_mem buf).
  set (blk := mkData 0 (3 + tl + pl)).
  assert (LB : Z.of_nat (length buf) = 3 + tl + pl).
  { rewrite B, !length_app, LP. subst hdrs tl. cbn [length]. lia. }
  assert (N0 : m2 0 = to_u8 0xd2)
    by (subst m2; change 0 with (Z.of_nat 0);
        rewrite (array_mem_nth buf 0) by lia; now rewrite B).
  assert (N1 : m2 1 = to_u8 tl)
    by (subst m2; change 1 with (Z.of_nat 1);
        rewrite (array_mem_nth buf 1) by lia; now rewrite B).
  assert (N2 : m2 2 = to_u8 pl)
    by (subst m2; change 2 with (Z.of_nat 2);
        rewrite (array_mem_nth buf 2) by lia; now rewrite B).
  set (nd := mkNdef (mkData 0 (3 + tl + pl)) 3 tl 0 pl).
  assert (Pr : value (nfc_ndef_rec_parse blk) m2 = Some (nd, mkData (3 + tl + pl) 0)).
  { pose proof (parse_short_form m2 blk) as F. cbv zeta in F.
    change (bytes blk + 0) with 0 in F. change (bytes blk + 1) with 1 in F.
    change (bytes blk + 2) with 2 in F.
    rewrite N0, N1, N2, !u8_to_u8 in F.
    rewrite (Z.mod_small tl), (Z.mod_small pl) in F by lia.
    change (size blk) with (3 + tl + pl) in F.
    rewrite Z.sub_diag in F.
    apply F; [reflexivity|reflexivity|lia]. }
  assert (C : chunked m2 nd = false)
    by (unfold chunked; cbn [nd rec bytes]; rewrite N0; reflexivity).
  assert (V : value (nfc_ndef_rec_new (Some blk)) m2
              = [nfc_ndef_rec_alloc nd m2])
    by (apply (single_record_chain m2 blk nd _ Pr); [cbn; lia|exact C]).
  exists (nfc_ndef_rec_alloc nd m2).
  split.
  { unfold test_ndef_record_new. fold tl. fold pl.
    replace (tl <? 0x100) with true by (symmetry; apply Z.ltb_lt; lia).
    replace (pl <? 0x100) with true by (symmetry; apply Z.ltb_lt; lia).
    cbn [negb]. fold buf. fold m2. fold pl. fold blk. rewrite V. reflexivity. }
  destruct (alloc_shape nd m2) as (rtd0 & v & ->); [cbn [nd rec size]; lia|].
  set (r := set_variant (nfc_ndef_rec_initialize g_object_new rtd0 nd m2) v).
  assert (Hr : raw r = hdrs ++ mediatype ++ P).
  { change (raw r) with (memread m2 0 (3 + tl + pl)).
    rewrite <- LB. subst m2. rewrite memread_array. exact B. }
  assert (Hh : u8 (m2 (bytes (rec nd))) = 0xd2)
    by (cbn [nd rec bytes]; rewrite N0; reflexivity).
  split; [rewrite Hr; symmetry; exact B|].
  split.
  { subst r. cbn [set_variant nfc_ndef_rec_initialize flags]. rewrite Hh.
    reflexivity. }
  split.
  { subst r. cbn [set_variant nfc_ndef_rec_initialize tnf]. rewrite Hh.
    reflexivity. }
  split.
  { apply view_of_type_segment with (hdrs := hdrs) (P := P) (n := tl);
      [exact Hr|reflexivity|subst tl; lia]. }
  split; [reflexivity|].
  apply view_of_payload_segment
    with (hdrs := hdrs) (T := mediatype) (n := pl) (k := tl);
    [exact Hr| |subst tl; lia|lia|lia].
  subst r. cbn [set_variant nfc_ndef_rec_initialize payload nd
                payload_length type_offset type_length id_length
                g_object_new].
  destruct (pl =? 0); reflexivity.
Qed.

Lemma test_ndef_record_new_parses_witness :
  exists r,
    @test_ndef_record_new sample_ext (bytes_of [0x61; 0x2f; 0x62])
      (Some (mkData 0 2)) (array_mem sample_x) = Some [r] /\
    view_of r (type r) = bytes_of [0x61; 0x2f; 0x62] /\
    view_of r (payload r) = bytes_of [0xd1; 1].
Proof.
  destruct (@test_ndef_record_new_parses sample_ext (array_mem sample_x)
              (bytes_of [0x61; 0x2f; 0x62]) (Some (mkData 0 2)))
    as (r & H1 & _ & _ & _ & H2 & _ & H3).
  - cbn; lia.
  - cbn; lia.
  - exists r. exact (conj H1 (conj H2 H3)).
Defined.

(** X15: a record synthesized by [nfc_ndef_rec_new_well_known] with a
    payload of 2^31 bytes or more (below 2^32) is not accepted back by the
    parser: [nfc_ndef_rec_parse] rejects its wire bytes and
    [nfc_ndef_rec_new] returns nothing for them. *)
Theorem well_known_huge_payload_not_parsed {ext : Externals}
    (mem mem' : memory) (rtd0 : NFC_NDEF_RTD) (ty pay block : GUtilData) :
  2 ^ 31 <= size pay < 2 ^ 32 ->
  view_bytes mem' block = raw (nfc_ndef_rec_new_well_known rtd0 ty pay mem) ->
  value (nfc_ndef_rec_parse block) mem' = None /\
  value (nfc_ndef_rec_new (Some block)) mem' = [].
Proof.
  intros Hp Hview.
  pose proof (wk_record rtd0 ty pay mem) as E. cbv zeta in E.
  rewrite E in Hview. cbn [raw] in Hview.
  destruct (well_known_header_cases ty pay) as [[H _]|[_ H]]; [|lia].
  rewrite H in Hview.
  pose proof (view_nth _ _ _ 0%nat Hview ltac:(cbn; lia)) as B0.
  pose proof (view_nth _ _ _ 2%nat Hview ltac:(cbn; lia)) as B2.
  cbn [nth app] in B0, B2.
  change (Z.of_nat 0) with 0 in B0. change (Z.of_nat 2) with 2 in B2.
  rewrite Z.add_0_r in B0.
  assert (Pn : value (nfc_ndef_rec_parse block) mem' = None).
  { rewrite parse_is_wire_record. apply wire_record_huge.
    unfold wire_payload_length, wire_sr, wire_hdr.
    rewrite B0, B2, !u8_to_u8.
    change (bit_set (0xC1 mod 256) NFC_NDEF_HDR_SR) with false. cbv iota.
    rewrite Z.shiftr_div_pow2 by lia.
    assert (128 <= size pay / 2 ^ 24 < 256).
    { split; [apply Z.div_le_lower_bound; lia
             |apply Z.div_lt_upper_bound; lia]. }
    rewrite (Z.mod_small (size pay / 2 ^ 24)) by lia.
    pose proof (u8_range (mem' (bytes block + 3))).
    pose proof (u8_range (mem' (bytes block + 4))).
    pose proof (u8_range (mem' (bytes block + 5))).
    lia. }
  split; [exact Pn|].
  rewrite rec_new_value.
  destruct (size block =? 0) eqn:Z0.
  - apply Z.eqb_eq in Z0. apply (f_equal (@length byte)) in Hview.
    unfold view_bytes in Hview. rewrite memread_length, Z0 in Hview.
    cbn in Hview. lia.
  - rewrite records_from_eq, Pn. now destruct (0 <? size block).
Qed.

Lemma well_known_huge_payload_not_parsed_witness :
  let R := raw (@nfc_ndef_rec_new_well_known sample_ext NFC_NDEF_RTD_UNKNOWN
                  (mkData 0 0) (mkData 0 (2 ^ 31)) (fun _ => x00)) in
  value (@nfc_ndef_rec_new sample_ext (Some (whole R))) (array_mem R) = [].
Proof.
  intros R.
  apply (@well_known_huge_payload_not_parsed sample_ext (fun _ => x00)
           (array_mem R) NFC_NDEF_RTD_UNKNOWN (mkData 0 0)
           (mkData 0 (2 ^ 31)) (whole R)).
  - cbn [size]. lia.
  - apply memread_array.
Defined.




